(** * tail-f: the tailing and remote-access engine

    A shallow embedding of [backend/security.py], [backend/ssh_manager.py]
    and the local tail loop of [backend/log_core.py], with the properties of
    the design document stated against it.

    Conventions of the embedding.
    - A Python [str] is a [list ascii]: a sequence of code points below 256.
      Literals are written [lit "..."].  A local file is a list of bytes,
      and the codec that makes text of them is part of what the file
      system answers.
    - Functions of the Python runtime that the program calls ([str.strip],
      [str.split], [os.path.normpath], [re.search], [re.sub], [int], ...) are
      modelled in [Py], [Re] and [PosixPath] after their CPython behaviour.
    - Generators are modelled by the trace of events they perform; what the
      outside world answers (the SSH server, the local file system) is an
      explicit argument. *)

From Stdlib Require Import ZArith Ascii String List Lia DecimalString.
From stdpp Require Import gmap strings list.

(* ===================================================================== *)
(** ** Python runtime: strings *)
(* ===================================================================== *)

Module Py.

Abbreviation str := (list ascii).

Definition lit (s : string) : str := String.list_ascii_of_string s.

Definition code (c : ascii) : N := N_of_ascii c.

Definition between (lo hi : N) (c : ascii) : bool :=
  ((lo <=? code c) && (code c <=? hi))%N.

(** [str.isspace] on one character: TAB..CR, FS..US, SPACE, NEL, NBSP. *)
Definition isspace (c : ascii) : bool :=
  between 9 13 c || between 28 32 c || between 133 133 c
  || between 160 160 c.

(** Truth value of a string in a condition: non-empty. *)
Definition truthy (s : str) : bool :=
  match s with [] => false | _ :: _ => true end.

Fixpoint lstrip (s : str) : str :=
  match s with
  | [] => []
  | c :: s' => if isspace c then lstrip s' else s
  end.

Definition rstrip (s : str) : str := reverse (lstrip (reverse s)).

(** [s.strip()] *)
Definition strip (s : str) : str := rstrip (lstrip s).

(** [s.split()] with no separator: maximal runs of non-space characters.
    [cur] is the word being read. *)
Fixpoint split_go (cur : str) (s : str) : list str :=
  match s with
  | [] => if truthy cur then [cur] else []
  | c :: s' =>
      if isspace c
      then (if truthy cur then cur :: split_go [] s' else split_go [] s')
      else split_go (cur ++ [c]) s'
  end.

Definition split (s : str) : list str := split_go [] s.

(** [s.split(sep)] for a one-character separator: never empty. *)
Fixpoint split_on_go (sep : ascii) (cur : str) (s : str) : list str :=
  match s with
  | [] => [cur]
  | c :: s' =>
      if Ascii.eqb c sep then cur :: split_on_go sep [] s'
      else split_on_go sep (cur ++ [c]) s'
  end.

Definition split_on (sep : ascii) (s : str) : list str :=
  split_on_go sep [] s.

(** [sep.join(parts)] *)
Fixpoint join (sep : str) (parts : list str) : str :=
  match parts with
  | [] => []
  | [p] => p
  | p :: rest => p ++ sep ++ join sep rest
  end.

(** [s.startswith(p)] *)
Fixpoint startswith (p s : str) : bool :=
  match p, s with
  | [], _ => true
  | _ :: _, [] => false
  | a :: p', b :: s' => Ascii.eqb a b && startswith p' s'
  end.

(** [needle in hay] *)
Fixpoint contains (needle hay : str) : bool :=
  startswith needle hay
  || match hay with
     | [] => false
     | _ :: hay' => contains needle hay'
     end.

(** [x in xs] for a list of strings. *)
Definition mem (x : str) (xs : list str) : bool :=
  bool_decide (x ∈ xs).

(** [str(n)] for an integer, as an f-string renders it. *)
Definition str_of_int (n : Z) : str :=
  lit (NilZero.string_of_int (Z.to_int n)).

(** [int(s)]: surrounding white space, an optional sign, decimal digits
    with single underscores between digits.  [None] is [ValueError]. *)
Inductive int_state := AtStart | AfterDigit | AfterUnderscore.

Definition digit_val (c : ascii) : option Z :=
  if between 48 57 c then Some (Z.of_N (code c) - 48)%Z else None.

Fixpoint int_digits (st : int_state) (acc : Z) (s : str) : option Z :=
  match s with
  | [] => match st with AfterDigit => Some acc | _ => None end
  | c :: s' =>
      match digit_val c with
      | Some d => int_digits AfterDigit (10 * acc + d)%Z s'
      | None =>
          if Ascii.eqb c "_"
          then match st with
               | AfterDigit => int_digits AfterUnderscore acc s'
               | _ => None
               end
          else None
      end
  end.

Definition int_of_str (s : str) : option Z :=
  match strip s with
  | "+"%char :: ds => int_digits AtStart 0 ds
  | "-"%char :: ds => Z.opp <$> int_digits AtStart 0 ds
  | ds => int_digits AtStart 0 ds
  end.

(** [repr(s)], used by the message of [int]'s [ValueError]. *)
Definition hex_digit (n : N) : ascii :=
  ascii_of_N (if (n <? 10)%N then 48 + n else 87 + n).

Definition printable (c : ascii) : bool :=
  between 32 126 c || between 161 172 c || between 174 255 c.

Definition repr_char (quote : ascii) (c : ascii) : str :=
  if Ascii.eqb c quote || Ascii.eqb c "\" then ["\"; c]%char
  else if Ascii.eqb c "009" then lit "\t"
  else if Ascii.eqb c "010" then lit "\n"
  else if Ascii.eqb c "013" then lit "\r"
  else if printable c then [c]
  else ["\"; "x"; hex_digit (code c / 16); hex_digit (code c mod 16)]%char.

Definition DQUOTE : ascii := "034"%char.

Definition repr (s : str) : str :=
  let quote :=
    if contains ["'"%char] s && negb (contains [DQUOTE] s)
    then DQUOTE else "'"%char in
  [quote] ++ concat (map (repr_char quote) s) ++ [quote].

(** ASCII lower-casing, the case folding of [re.IGNORECASE] on code
    points below 256 for patterns made of ASCII characters. *)
Definition lower (c : ascii) : ascii :=
  if between 65 90 c then ascii_of_N (code c + 32) else c.

Definition upper (c : ascii) : ascii :=
  if between 97 122 c then ascii_of_N (code c - 32) else c.

(** Exceptions: the program only tells [OSError] from the rest, and
    formats [str(e)] into messages. *)
Inductive exn :=
| OSError (msg : str)
| OtherError (msg : str).

Definition str_exn (e : exn) : str :=
  match e with OSError msg | OtherError msg => msg end.

Definition is_oserror (e : exn) : bool :=
  match e with OSError _ => true | OtherError _ => false end.

Inductive result (A : Type) :=
| Ok (a : A)
| Raise (e : exn).
Arguments Ok {A} a.
Arguments Raise {A} e.

(** The scan that [int] makes of the digits and underscores at the head
    of a literal, before it converts them: the number of digits met, or
    [None] when an underscore is doubled or ends the run. *)
Fixpoint scan_digits (after_underscore : bool) (digits : Z) (s : str)
    : option Z :=
  match s with
  | c :: s' =>
      if between 48 57 c then scan_digits false (digits + 1)%Z s'
      else if Ascii.eqb c "_"
           then (if after_underscore then None
                 else scan_digits true digits s')
           else (if after_underscore then None else Some digits)
  | [] => if after_underscore then None else Some digits
  end.

Definition unsigned (s : str) : str :=
  match s with
  | "+"%char :: ds => ds
  | "-"%char :: ds => ds
  | ds => ds
  end.

(** [sys.int_info.default_max_str_digits] *)
Definition int_max_str_digits : Z := 4300.

(** [int(s)] with its two [ValueError]s: a literal of more than 4300
    digits is refused before it is converted (CPython 3.11, with the limit
    the interpreter starts with), any other malformed text is an invalid
    literal. *)
Definition int (s : str) : result Z :=
  let invalid :=
    Raise (OtherError
             (lit "invalid literal for int() with base 10: " ++ repr s)) in
  let body := unsigned (strip s) in
  match (if startswith (lit "_") body then None
         else scan_digits false 0 body) with
  | None => invalid
  | Some digits =>
      if (int_max_str_digits <? digits)%Z
      then Raise (OtherError
                    (lit "Exceeds the limit (4300 digits) for integer string conversion: value has "
                       ++ str_of_int digits
                       ++ lit " digits; use sys.set_int_max_str_digits() to increase the limit"))
      else match int_of_str s with
           | Some n => Ok n
           | None => invalid
           end
  end.

(** A Python [bytes]. *)
Abbreviation bytes := (list Byte.byte).

(** Text-mode line splitting with universal newlines: a line ends at LF,
    CR or CR LF, and is delivered with a single LF. *)
Definition LF : ascii := "010"%char.
Definition CR : ascii := "013"%char.

Fixpoint lines_go (after_cr : bool) (cur : str) (s : str) : list str :=
  match s with
  | [] => if truthy cur then [cur] else []
  | c :: s' =>
      if Ascii.eqb c LF
      then (if after_cr then lines_go false cur s'
            else (cur ++ [LF]) :: lines_go false [] s')
      else if Ascii.eqb c CR then (cur ++ [LF]) :: lines_go true [] s'
      else lines_go false (cur ++ [c]) s'
  end.

Definition text_lines (s : str) : list str := lines_go false [] s.

End Py.

Import Py.

(* ===================================================================== *)
(** ** Python runtime: the fragment of [re] the program uses *)
(* ===================================================================== *)

Module Re.

(** Character sets are lists of inclusive ranges; [*] and [+] are only
    ever applied to a set in the program's patterns. *)
Definition charset := list (ascii * ascii).

Inductive regex :=
| Chr (c : ascii)
| Set_ (cs : charset)
| Seq (r1 r2 : regex)
| Alt (r1 r2 : regex)
| Star (cs : charset)
| Plus (cs : charset)
| Dollar.

Definition rng (lo hi : ascii) : ascii * ascii := (lo, hi).
Definition one (c : ascii) : ascii * ascii := (c, c).

Definition in_range (r : ascii * ascii) (c : ascii) : bool :=
  between (code r.1) (code r.2) c.

Definition in_set (ignorecase : bool) (cs : charset) (c : ascii) : bool :=
  existsb (fun r => in_range r c
                    || ignorecase && (in_range r (lower c)
                                      || in_range r (upper c))) cs.

Definition chr_eq (ignorecase : bool) (p c : ascii) : bool :=
  if ignorecase then Ascii.eqb (lower p) (lower c) else Ascii.eqb p c.

(** Greedy repetition of a set, giving characters back on failure of the
    continuation. *)
Fixpoint star (ic : bool) (cs : charset) (s : str)
    (k : str -> option str) : option str :=
  match s with
  | c :: s' =>
      if in_set ic cs c
      then match star ic cs s' k with
           | Some rest => Some rest
           | None => k s
           end
      else k s
  | [] => k []
  end.

(** Backtracking matcher anchored at the head of [s]; the continuation
    receives what is left after the part matched so far. *)
Fixpoint exec (ic : bool) (r : regex) (s : str)
    (k : str -> option str) : option str :=
  match r with
  | Chr p =>
      match s with
      | c :: s' => if chr_eq ic p c then k s' else None
      | [] => None
      end
  | Set_ cs =>
      match s with
      | c :: s' => if in_set ic cs c then k s' else None
      | [] => None
      end
  | Seq r1 r2 => exec ic r1 s (fun s1 => exec ic r2 s1 k)
  | Alt r1 r2 =>
      match exec ic r1 s k with
      | Some rest => Some rest
      | None => exec ic r2 s k
      end
  | Star cs => star ic cs s k
  | Plus cs =>
      match s with
      | c :: s' => if in_set ic cs c then star ic cs s' k else None
      | [] => None
      end
  | Dollar =>
      match s with
      | [] => k s
      | [c] => if Ascii.eqb c "010" then k s else None
      | _ => None
      end
  end.

(** [pattern.match(s)]: what follows the match, if there is one. *)
Definition match_at (ic : bool) (r : regex) (s : str) : option str :=
  exec ic r s Some.

(** [re.search(pattern, s)] as a truth value. *)
Fixpoint search (ic : bool) (r : regex) (s : str) : bool :=
  match match_at ic r s with
  | Some _ => true
  | None =>
      match s with
      | [] => false
      | _ :: s' => search ic r s'
      end
  end.

(** [pattern.sub('', s)]: leftmost non-overlapping matches are dropped.
    [skip] counts the characters of the current match still to drop. *)
Fixpoint sub_go (ic : bool) (r : regex) (skip : nat) (s : str) : str :=
  match s with
  | [] => []
  | c :: s' =>
      match skip with
      | S n => sub_go ic r n s'
      | O =>
          match match_at ic r s with
          | Some rest =>
              match (length s - length rest)%nat with
              | S n => sub_go ic r n s'
              | O => c :: sub_go ic r 0 s'
              end
          | None => c :: sub_go ic r 0 s'
          end
      end
  end.

Definition sub_empty (ic : bool) (r : regex) (s : str) : str :=
  sub_go ic r 0 s.

(** A literal string as a pattern. *)
Fixpoint word (w : str) : regex :=
  match w with
  | [] => Star []
  | [c] => Chr c
  | c :: w' => Seq (Chr c) (word w')
  end.

End Re.

(* ===================================================================== *)
(** ** Python runtime: [posixpath] *)
(* ===================================================================== *)

Module PosixPath.

Definition sep : ascii := "/"%char.
Definition dot : str := lit ".".
Definition dotdot : str := lit "..".

Definition str_eqb (a b : str) : bool := bool_decide (a = b).

(** Truth value of a list in a condition. *)
Definition nonempty {A} (l : list A) : bool :=
  match l with [] => false | _ :: _ => true end.

(** One turn of the loop of [normpath] over the components. *)
Definition normpath_step (initial_slashes : nat) (new_comps : list str)
    (comp : str) : list str :=
  if str_eqb comp [] || str_eqb comp dot then new_comps
  else if negb (str_eqb comp dotdot)
          || (Nat.eqb initial_slashes 0 && negb (nonempty new_comps))
          || (nonempty new_comps
              && bool_decide (last new_comps = Some dotdot))
       then new_comps ++ [comp]
       else if nonempty new_comps then removelast new_comps
            else new_comps.

(** [os.path.normpath(path)] *)
Definition normpath (path : str) : str :=
  if str_eqb path [] then dot
  else
    let initial_slashes :=
      if startswith [sep] path
      then (if startswith [sep; sep] path
               && negb (startswith [sep; sep; sep] path)
            then 2%nat else 1%nat)
      else 0%nat in
    let comps := foldl (normpath_step initial_slashes) [] (split_on sep path) in
    let joined := join [sep] comps in
    let path' := replicate initial_slashes sep ++ joined in
    if truthy path' then path' else dot.

(** [os.path.join(a, b)] *)
Definition join2 (a b : str) : str :=
  if startswith [sep] b then b
  else if negb (truthy a) || bool_decide (last a = Some sep) then a ++ b
  else a ++ [sep] ++ b.

(** [os.path.abspath(path)], with [cwd] the value of [os.getcwd()]. *)
Definition abspath (cwd : str) (path : str) : str :=
  normpath (if startswith [sep] path then path else join2 cwd path).

End PosixPath.

(* ===================================================================== *)
(** ** [backend/security.py] *)
(* ===================================================================== *)

Module SecurityValidator.

Import Re.

(** [DANGEROUS_PATTERNS] *)
Definition DANGEROUS_PATTERNS : list regex :=
  [ Seq (Chr ".") (Chr ".");
    word (lit "/etc/shadow");
    word (lit "/etc/passwd");
    word (lit "/root/.ssh");
    Seq (word (lit ".pem")) Dollar;
    Seq (word (lit ".key")) Dollar;
    word (lit "/proc/");
    word (lit "/sys/") ].

(** [ALLOWED_COMMANDS] *)
Definition ALLOWED_COMMANDS : list str :=
  [lit "tail"; lit "cat"; lit "head"; lit "ls"; lit "find"].

(** [validate_path(path, allowed_paths)].  [cwd] is what [os.getcwd()]
    reports, which [os.path.abspath] consults for a relative path.  With a
    working directory to report, neither [normpath] nor [abspath] raises on
    a [str], so the [except] branch of the source is not reachable and has
    no counterpart here. *)
Definition validate_path (cwd : str) (path : str)
    (allowed_paths : list str) : bool :=
  let normalized_path := PosixPath.normpath path in
  let resolved_path := PosixPath.abspath cwd normalized_path in
  if existsb (fun pattern => search true pattern resolved_path)
       DANGEROUS_PATTERNS
  then false
  else if negb (PosixPath.nonempty allowed_paths) then false
  else
    existsb
      (fun allowed =>
         let allowed_resolved :=
           PosixPath.abspath cwd (PosixPath.normpath allowed) in
         startswith allowed_resolved resolved_path)
      allowed_paths.

(** The characters [validate_command] refuses anywhere in a command. *)
Definition dangerous_chars : list ascii :=
  [";"; "|"; "&"; "$"; "`"; ">"; "<"; "010"; "013"]%char.

(** [validate_command(command)].  The subscript [[0]] is applied to the
    words of a non-empty stripped string; [None] stands for the
    [IndexError] of an empty word list. *)
Definition cmd_name (command : str) : option str :=
  if truthy (strip command) then head (split (strip command))
  else Some [].

Definition validate_command (command : str) : option bool :=
  name ← cmd_name command;
  if negb (mem name ALLOWED_COMMANDS) then Some false
  else if existsb (fun char => contains [char] command) dangerous_chars
       then Some false
       else Some true.

(** [check_file_size(size, max_size)] *)
Definition check_file_size (size max_size : Z) : bool :=
  ((0 <=? size) && (size <=? max_size))%Z.

End SecurityValidator.

Import SecurityValidator.

(* ===================================================================== *)
(** ** [strip_ansi_codes] (the same definition in [ssh_manager.py] and
       [log_core.py]) *)
(* ===================================================================== *)

Definition ESC : ascii := "027"%char.

(** [ANSI_ESCAPE_PATTERN]: an ESC-prefixed sequence, or a bare
    bracket, digits and semicolons, and the letter m. *)
Definition ANSI_ESCAPE_PATTERN : Re.regex :=
  Re.Alt
    (Re.Seq (Re.Chr ESC)
       (Re.Seq (Re.Chr "[")
          (Re.Seq (Re.Star [Re.rng "0" "?"])
             (Re.Seq (Re.Star [Re.rng " " "/"]) (Re.Set_ [Re.rng "@" "~"])))))
    (Re.Seq (Re.Chr "[")
       (Re.Seq (Re.Plus [Re.rng "0" "9"; Re.one ";"]) (Re.Chr "m"))).

Definition strip_ansi_codes (text : str) : str :=
  Re.sub_empty false ANSI_ESCAPE_PATTERN text.

(* ===================================================================== *)
(** ** Events and traces *)
(* ===================================================================== *)

(** What a call does that an observer can see, in order. *)
Inductive event :=
| CheckPath (path : str) (verdict : bool)     (* validator.validate_path *)
| CheckCommand (cmd : str) (verdict : bool)   (* validator.validate_command *)
| GetConnection                               (* ssh_pool.get_connection *)
| ExecCommand (cmd : str)                     (* client.exec_command *)
| CloseClient (client : nat)                  (* client.close *)
| Yield (data : str)                          (* yield {"data": ...} *)
| Print (msg : str)                           (* print(...) *)
| Sleep                                       (* asyncio.sleep(0.1) *)
| WatchStart                                  (* observer.start *)
| WatchStop.                                  (* observer.stop, observer.join *)

(** A computation that performs events and returns or raises. *)
Module Trace.

Definition t (A : Type) : Type := list event * result A.

Definition ret {A} (a : A) : t A := ([], Ok a).
Definition raise {A} (e : exn) : t A := ([], Raise e).
Definition emit (ev : event) : t unit := ([ev], Ok tt).
Definition lift {A} (r : result A) : t A := ([], r).

Definition bind {A B} (m : t A) (f : A -> t B) : t B :=
  match m with
  | (evs, Ok a) => let '(evs', r) := f a in (evs ++ evs', r)
  | (evs, Raise e) => (evs, Raise e)
  end.

(** [try: m except Exception as e: h e] *)
Definition catch {A} (m : t A) (h : exn -> t A) : t A :=
  match m with
  | (evs, Ok a) => (evs, Ok a)
  | (evs, Raise e) => let '(evs', r) := h e in (evs ++ evs', r)
  end.

(** [try: m finally: ev], for a computation that may still be running
    ([running a] tells so): the clean-up runs once the body is left. *)
Definition finally {A} (running : A -> bool) (m : t A) (ev : event)
    : t A :=
  match m with
  | (evs, Ok a) => if running a then (evs, Ok a) else (evs ++ [ev], Ok a)
  | (evs, Raise e) => (evs ++ [ev], Raise e)
  end.

(** [for x in xs: body x] *)
Fixpoint for_each {A} (xs : list A) (body : A -> t unit) : t unit :=
  match xs with
  | [] => ret tt
  | x :: xs' => bind (body x) (fun _ => for_each xs' body)
  end.

End Trace.

#[global] Instance trace_ret : MRet Trace.t := @Trace.ret.
#[global] Instance trace_bind : MBind Trace.t :=
  fun A B f m => Trace.bind m f.

(** The yielded records of a trace. *)
Definition yields (evs : list event) : list str :=
  omap (fun ev => match ev with Yield d => Some d | _ => None end) evs.

(** The commands sent to the remote shell. *)
Definition commands (evs : list event) : list str :=
  omap (fun ev => match ev with ExecCommand c => Some c | _ => None end) evs.

Definition is_get_connection (ev : event) : bool :=
  match ev with GetConnection => true | _ => false end.

(** A line as both tail loops emit it: stripped, dropped when blank, then
    freed of colour codes. *)
Definition emit_line (line : str) : Trace.t unit :=
  let decoded_line := strip line in
  if truthy decoded_line
  then Trace.emit (Yield (strip_ansi_codes decoded_line))
  else Trace.ret tt.

(** Whether a generator has ended or is suspended in its follow loop,
    waiting for input beyond the scripted prefix. *)
Inductive status := Ended | Following.

Definition is_following (st : status) : bool :=
  match st with Following => true | Ended => false end.

(* ===================================================================== *)
(** ** [backend/ssh_manager.py]: server profiles and the connection pool *)
(* ===================================================================== *)

(** The [server_config] mapping, with the keys the engine reads; an
    optional field is a key that may be absent.  [idle_timeout] is the
    per-profile idle timeout of the design document's ServerProfile: the
    mapping may carry it, and no code path reads it. *)
Record server_config := {
  host : str;
  port : option Z;
  allowed_paths : option (list str);
  max_file_size : option Z;
  idle_timeout : option Z
}.

Module SSHConnectionPool.

(** One entry of [self.connections].  A client is named by a handle;
    clock readings are integers (the source compares [time.time()]
    floats; rounding is not modelled). *)
Record conn_info := {
  client : nat;
  last_used : Z;
  config : server_config
}.

Record pool := {
  max_connections : Z;
  timeout : Z;
  connections : gmap str conn_info
}.

Definition with_connections (p : pool) (c : gmap str conn_info) : pool :=
  {| max_connections := max_connections p;
     timeout := timeout p;
     connections := c |}.

(** The first loop of [cleanup_idle_connections]: the ids to remove, in
    the iteration order of the mapping. *)
Definition is_idle (current_time : Z) (p : pool) (ci : conn_info) : bool :=
  (timeout p <? current_time - last_used ci)%Z.

Definition to_remove (current_time : Z) (p : pool) : list str :=
  (filter (fun kv => is_idle current_time p kv.2 = true)
     (map_to_list (connections p))).*1.

(** The second loop: close (a failure of [close] is swallowed), delete,
    report.  A missing key would raise [KeyError] at the [del]. *)
Definition remove_one (conns : gmap str conn_info) (server_id : str)
    : Trace.t (gmap str conn_info) :=
  match conns !! server_id with
  | Some ci =>
      Trace.emit (CloseClient (client ci));;
      Trace.emit (Print (lit "[SSH] Closed idle connection to "
                           ++ server_id));;
      mret (delete server_id conns)
  | None => Trace.raise (OtherError (repr server_id))
  end.

Fixpoint remove_all (conns : gmap str conn_info) (ids : list str)
    : Trace.t (gmap str conn_info) :=
  match ids with
  | [] => mret conns
  | server_id :: ids' =>
      conns' ← remove_one conns server_id; remove_all conns' ids'
  end.

(** [cleanup_idle_connections()], at clock reading [current_time]. *)
Definition cleanup_idle_connections (current_time : Z) (p : pool)
    : Trace.t pool :=
  conns ← remove_all (connections p) (to_remove current_time p);
  mret (with_connections p conns).

End SSHConnectionPool.

(* ===================================================================== *)
(** ** [backend/ssh_manager.py]: [RemoteFileReader] *)
(* ===================================================================== *)

Module RemoteFileReader.

(** What the SSH side answers.  A channel is the script of what
    successive reads deliver: a line, the empty string (end of file, or
    nothing to read), or an exception. *)
Inductive outcome :=
| Got (line : str)
| Boom (e : exn).

Inductive reply :=
| ExecRaises (e : exn)
| Channels (stdout stderr : list outcome).

Record world := {
  cwd : str;                 (* os.getcwd() of the engine's process *)
  connects : bool;           (* get_connection returns a client *)
  run : str -> reply         (* the answer to exec_command(cmd) *)
}.

Definition exec_command (w : world) (cmd : str)
    : Trace.t (list outcome * list outcome) :=
  Trace.emit (ExecCommand cmd);;
  match run w cmd with
  | ExecRaises e => Trace.raise e
  | Channels out err => mret (out, err)
  end.

(** [channel.read().decode()] *)
Fixpoint read (ch : list outcome) : result str :=
  match ch with
  | [] => Ok []
  | Got line :: ch' =>
      if truthy line
      then match read ch' with
           | Ok rest => Ok (line ++ rest)
           | Raise e => Raise e
           end
      else Ok []
  | Boom e :: _ => Raise e
  end.

(** [for line in channel: body line] *)
Fixpoint for_lines (ch : list outcome) (body : str -> Trace.t unit)
    : Trace.t unit :=
  match ch with
  | [] => mret tt
  | Got line :: ch' =>
      if truthy line then body line;; for_lines ch' body else mret tt
  | Boom e :: _ => Trace.raise e
  end.

(** A call of [validator.validate_command] inside a [try]. *)
Definition check_command (cmd : str) : Trace.t bool :=
  match validate_command cmd with
  | Some verdict => Trace.emit (CheckCommand cmd verdict);; mret verdict
  | None => Trace.raise (OtherError (lit "list index out of range"))
  end.

(** *** [list_files] *)

Record descriptor := { d_path : str; d_name : str }.

(** [os.path.basename] *)
Definition basename (p : str) : str :=
  default [] (last (split_on PosixPath.sep p)).

Definition max_files : nat := 1000.

Fixpoint collect (ch : list outcome) (files : list descriptor)
    (line_count : nat) : result (list descriptor) :=
  match ch with
  | [] => Ok files
  | Got line :: ch' =>
      if truthy line
      then if (max_files <=? line_count)%nat then Ok files
           else
             let file_path := strip line in
             if truthy file_path
             then collect ch'
                    (files ++ [{| d_path := file_path;
                                  d_name := basename file_path |}])
                    (S line_count)
             else collect ch' files line_count
      else Ok files
  | Boom e :: _ => Raise e
  end.

Definition find_command (directory pattern : str) (recursive : bool)
    : str :=
  if recursive
  then lit "find '" ++ directory ++ lit "' -type f -name '" ++ pattern
       ++ lit "'"
  else lit "find '" ++ directory ++ lit "' -maxdepth 1 -type f -name '"
       ++ pattern ++ lit "'".

Definition list_files (w : world) (cfg : server_config)
    (directory pattern : str) (recursive : bool)
    : Trace.t (list descriptor) :=
  let allowed := default [] (allowed_paths cfg) in
  let ok := validate_path (cwd w) directory allowed in
  Trace.emit (CheckPath directory ok);;
  if negb ok
  then Trace.emit (Print (lit "[Security] Path rejected: " ++ directory));;
       mret []
  else
    Trace.emit GetConnection;;
    if negb (connects w) then mret []
    else
      Trace.catch
        (let cmd := find_command directory pattern recursive in
         verdict ← check_command cmd;
         if negb verdict
         then Trace.emit (Print (lit "[Security] Command rejected: "
                                   ++ cmd));;
              mret []
         else
           chans ← exec_command w cmd;
           Trace.lift (collect chans.1 [] 0))
        (fun e =>
           Trace.emit (Print (lit "[SSH] Error listing files: "
                                ++ str_exn e));;
           mret []).

(** *** [tail_file] *)

Definition size_command (file_path : str) : str :=
  lit "stat -c %s " ++ file_path ++ lit " 2>/dev/null || echo 0".

Definition history_command (read_size : Z) (file_path : str) : str :=
  lit "tail -c " ++ str_of_int read_size ++ lit " " ++ file_path.

Definition follow_command (file_path : str) : str :=
  lit "tail -f " ++ file_path.

(** The [while True] loop over [stdout.readline]; a script that runs out
    leaves the generator blocked in the next read. *)
Fixpoint follow (ch : list outcome) : Trace.t status :=
  match ch with
  | [] => mret Following
  | Got line :: ch' =>
      (if truthy line then emit_line line else Trace.emit Sleep);;
      follow ch'
  | Boom e :: _ =>
      Trace.emit (Print (lit "[SSH] Error reading line: " ++ str_exn e));;
      mret Ended
  end.

(** [int(stdout.read().decode().strip() or 0)] *)
Definition parse_size (ch : list outcome) : result Z :=
  match read ch with
  | Ok out => let text := strip out in
              if truthy text then int text else Ok 0%Z
  | Raise e => Raise e
  end.

Definition default_max_file_size : Z := 104857600.

Definition tail_file (w : world) (cfg : server_config) (file_path : str)
    : Trace.t status :=
  let allowed := default [] (allowed_paths cfg) in
  let ok := validate_path (cwd w) file_path allowed in
  Trace.emit (CheckPath file_path ok);;
  if negb ok
  then Trace.emit (Yield (lit "[SECURITY] Access denied: " ++ file_path));;
       mret Ended
  else
    Trace.emit GetConnection;;
    if negb (connects w)
    then Trace.emit
           (Yield (lit "[ERROR] Failed to connect to remote server"));;
         mret Ended
    else
      Trace.catch
        (let max_size := default default_max_file_size (max_file_size cfg) in
         let cmd_check := size_command file_path in
         chans ← exec_command w cmd_check;
         file_size ← Trace.lift (parse_size chans.1);
         if negb (check_file_size file_size max_size)
         then Trace.emit
                (Yield (lit "[ERROR] File too large: "
                          ++ str_of_int file_size
                          ++ lit " bytes (max: " ++ str_of_int max_size
                          ++ lit ")"));;
              mret Ended
         else
           (if (0 <? file_size)%Z
            then
              let read_size := Z.min file_size 10240 in
              let cmd_history := history_command read_size file_path in
              chans ← exec_command w cmd_history;
              for_lines chans.1 emit_line
            else mret tt);;
           let cmd_tail := follow_command file_path in
           verdict ← check_command cmd_tail;
           if negb verdict
           then Trace.emit
                  (Yield (lit "[SECURITY] Command rejected: " ++ cmd_tail));;
                mret Ended
           else
             chans ← exec_command w cmd_tail;
             follow chans.1)
        (fun e =>
           Trace.emit
             (Yield (lit "[ERROR] Failed to read remote file: "
                       ++ str_exn e));;
           mret Ended).

(** *** [clear_file] *)

Definition clear_command (file_path : str) : str :=
  lit "truncate -s 0 " ++ file_path.

Definition clear_file (w : world) (cfg : server_config) (file_path : str)
    : Trace.t bool :=
  let allowed := default [] (allowed_paths cfg) in
  let ok := validate_path (cwd w) file_path allowed in
  Trace.emit (CheckPath file_path ok);;
  if negb ok
  then Trace.emit
         (Print (lit "[Security] Clear file rejected: " ++ file_path));;
       mret false
  else
    Trace.emit GetConnection;;
    if negb (connects w) then mret false
    else
      Trace.catch
        (let cmd := clear_command file_path in
         chans ← exec_command w cmd;
         err ← Trace.lift (read chans.2);
         let error_output := strip err in
         if truthy error_output
         then Trace.emit (Print (lit "[SSH] Error clearing file: "
                                   ++ error_output));;
              mret false
         else mret true)
        (fun e =>
           Trace.emit (Print (lit "[SSH] Error clearing file: "
                                ++ str_exn e));;
           mret false).

End RemoteFileReader.

(* ===================================================================== *)
(** ** [backend/log_core.py]: the local branch of [LogManager.tail_file] *)
(* ===================================================================== *)

Module LogManager.

(** What the local file system answers.  A file is its bytes: sizes and
    offsets count bytes, as [os.path.getsize], [fp.seek] and [fp.tell]
    do. *)
Inductive opened :=
| OpenRaises (e : exn)
| Opened (content : bytes).

(** How a wait on the change flag ends: the watcher set it, or the two
    seconds ran out (and then whether the path still exists). *)
Inductive wake :=
| Modified
| TimedOut (still_exists : bool).

(** One turn of the follow loop: the wake-up, then what [getsize] and
    [open] answer if they are asked. *)
Record cycle := {
  woke : wake;
  getsize : result Z;
  reopen : opened
}.

(** [decode] is the codec of the entry's [encoding] (utf-8 unless
    configured) with [errors='replace']: the text that a decoder in its
    initial state makes of a run of bytes up to the end of the file. *)
Record world := {
  file_path : option str;    (* file_conf.get("path") *)
  path_exists : bool;        (* os.path.exists(file_path), for a path *)
  decode : bytes -> str;
  first_open : opened;       (* the open of the backlog replay *)
  first_size : result Z;     (* getsize inside it *)
  second_size : result Z;    (* getsize after it: the first cursor *)
  observer : result unit;    (* observer.schedule and observer.start *)
  cycles : list cycle
}.

Definition truncated_notice : str :=
  lit "[SYSTEM] File truncated. Reloading...".

(** [await fp.seek(pos)] then [async for line in fp]: the seek puts the
    file at byte [pos] and resets the decoder, and the lines are those of
    the text decoded from there. *)
Definition read_from (decode : bytes -> str) (content : bytes) (pos : Z)
    : list str :=
  text_lines (decode (drop (Z.to_nat pos) content)).

(** [await fp.tell()] once the lines from [pos] are read: the byte offset
    of the end of the file, or [pos] when the file ends before it (at the
    end of a file the decoder holds nothing back: with [errors='replace']
    an incomplete character has become a replacement character). *)
Definition tell (content : bytes) (pos : Z) : Z :=
  Z.max pos (Z.of_nat (length content)).

Inductive step :=
| Continue (current_position : Z)
| Break.

(** The body of [while True], from cursor [current_position]. *)
Definition follow_cycle (decode : bytes -> str) (current_position : Z)
    (c : cycle) : Trace.t step :=
  match woke c with
  | TimedOut still_exists =>
      if negb still_exists
      then Trace.emit (Yield (lit "[SYSTEM] File disappeared."));;
           mret Break
      else mret (Continue current_position)
  | Modified =>
      match getsize c with
      | Raise e =>
          if is_oserror e
          then Trace.emit Sleep;; mret (Continue current_position)
          else Trace.raise e
      | Ok new_size =>
          let truncated := (new_size <? current_position)%Z in
          (if truncated then Trace.emit (Yield truncated_notice)
           else mret tt);;
          let current_position :=
            if truncated then 0%Z else current_position in
          match reopen c with
          | OpenRaises e =>
              if is_oserror e
              then Trace.emit Sleep;; mret (Continue current_position)
              else Trace.raise e
          | Opened content =>
              Trace.for_each (read_from decode content current_position)
                emit_line;;
              mret (Continue (tell content current_position))
          end
      end
  end.

Fixpoint follow_loop (decode : bytes -> str) (current_position : Z)
    (cs : list cycle) : Trace.t status :=
  match cs with
  | [] => mret Following
  | c :: cs' =>
      st ← follow_cycle decode current_position c;
      match st with
      | Continue pos => follow_loop decode pos cs'
      | Break => mret Ended
      end
  end.

(** The backlog replay: the trailing 10 KiB, without the first line when
    the window does not start the file. *)
Definition backlog (w : world) : Trace.t unit :=
  match first_open w with
  | OpenRaises e => Trace.raise e
  | Opened content =>
      file_size ← Trace.lift (first_size w);
      if (0 <? file_size)%Z
      then
        let read_size := Z.min file_size (1024 * 10) in
        let lines :=
          read_from (decode w) content (file_size - read_size) in
        let lines := if (read_size <? file_size)%Z then tail lines
                     else lines in
        Trace.for_each lines emit_line
      else mret tt
  end.

(** The [TypeError] of [os.path.exists(None)]. *)
Definition no_path_error : exn :=
  OtherError
    (lit "stat: path should be string, bytes, os.PathLike or integer, not NoneType").

(** [tail_file] for a local source, from [file_conf.get("path")] on.  The
    existence check stands before the [try]: what it raises for an entry
    without a path leaves the generator.  The observer is scheduled and
    started inside the outer [try] and before the inner one: when that
    fails, the error is reported and nothing is stopped. *)
Definition tail_file (w : world) : Trace.t status :=
  match file_path w with
  | None => Trace.raise no_path_error
  | Some _ =>
      if negb (path_exists w)
      then Trace.emit
             (Yield
                (lit "[SYSTEM] File not found or configured incorrectly."));;
           mret Ended
      else
        Trace.catch
          (backlog w;;
           current_position ← Trace.lift (second_size w);
           Trace.lift (observer w);;
           Trace.emit WatchStart;;
           Trace.finally is_following
             (follow_loop (decode w) current_position (cycles w)) WatchStop)
          (fun e =>
             Trace.emit (Yield (lit "[SYSTEM] Error reading file: "
                                  ++ str_exn e));;
             mret Ended)
  end.

End LogManager.

(* ===================================================================== *)
(** ** Notions of the design document, stated independently of the code *)
(* ===================================================================== *)

(** A text made of white space only (the empty text included). *)
Definition all_space (s : str) : Prop := Forall (fun c => isspace c = true) s.

(** [tok] is the first white-space-delimited token of [command]: leading
    white space, then [tok], a non-empty run without white space, which the
    end of the text or a white-space character follows. *)
Definition first_token (command tok : str) : Prop :=
  exists ws rest,
    command = ws ++ tok ++ rest
    /\ all_space ws
    /\ tok <> []
    /\ Forall (fun c => isspace c = false) tok
    /\ (rest = [] \/ exists c rest', rest = c :: rest' /\ isspace c = true).

(** The canonical form [validate_path] computes for a path. *)
Definition canonical (cwd path : str) : str :=
  PosixPath.abspath cwd (PosixPath.normpath path).

(** A canonical path lies in directory [dir]: it is [dir] itself or goes on
    below it after a separator. *)
Definition in_directory (dir path : str) : Prop :=
  path = dir \/ exists rest, path = dir ++ [PosixPath.sep] ++ rest.

(** Some pattern of the deny-list is found in the text. *)
Definition denied (resolved_path : str) : bool :=
  existsb (fun pattern => Re.search true pattern resolved_path)
    DANGEROUS_PATTERNS.

(** A parameter character of a bare colour code: a digit or a semicolon. *)
Definition ansi_params : Re.charset := [Re.rng "0" "9"; Re.one ";"].

Definition is_param (c : ascii) : bool := Re.in_set false ansi_params c.

(** The continuation of the matcher after the parameters: the letter m. *)
Definition expect_m (s : str) : option str :=
  Re.exec false (Re.Chr "m") s Some.

(** [s] without the parameter characters it starts with. *)
Fixpoint after_params (s : str) : str :=
  match s with
  | c :: s' => if is_param c then after_params s' else s
  | [] => []
  end.

(** What is left of [s] after the bare colour code it starts with: a
    bracket, one or more parameter characters, the letter m. *)
Definition bare_code (s : str) : option str :=
  match s with
  | c :: d :: s' =>
      if Ascii.eqb "[" c && is_param d
      then match after_params s' with
           | e :: rest => if Ascii.eqb "m" e then Some rest else None
           | [] => None
           end
      else None
  | _ => None
  end.

(** The characters of an ESC-prefixed sequence: parameters (0 to ?),
    intermediates (space to /) and the final character (@ to ~). *)
Definition is_csi_param (c : ascii) : bool := between 48 63 c.
Definition is_csi_inter (c : ascii) : bool := between 32 47 c.
Definition is_csi_final (c : ascii) : bool := between 64 126 c.

(** An ESC-prefixed sequence: ESC, a bracket, parameters, intermediates
    and a final character. *)
Definition esc_sequence (s : str) : Prop :=
  exists params inters final,
    s = ESC :: "["%char :: params ++ inters ++ [final]
    /\ Forall (fun c => is_csi_param c = true) params
    /\ Forall (fun c => is_csi_inter c = true) inters
    /\ is_csi_final final = true.

(** [s] without the parameters, and without the intermediates, that it
    starts with. *)
Fixpoint after_csi_params (s : str) : str :=
  match s with
  | c :: s' => if is_csi_param c then after_csi_params s' else s
  | [] => []
  end.

Fixpoint after_csi_inters (s : str) : str :=
  match s with
  | c :: s' => if is_csi_inter c then after_csi_inters s' else s
  | [] => []
  end.

(** What is left of [s] after the ESC-prefixed sequence it starts with. *)
Definition esc_code (s : str) : option str :=
  match s with
  | c :: d :: s' =>
      if Ascii.eqb ESC c && Ascii.eqb "[" d
      then match after_csi_inters (after_csi_params s') with
           | f :: rest => if is_csi_final f then Some rest else None
           | [] => None
           end
      else None
  | _ => None
  end.

(** The continuation of the matcher after the intermediates: one final
    character. *)
Definition expect_final (s : str) : option str :=
  Re.exec false (Re.Set_ [Re.rng "@" "~"]) s Some.

Definition expect_inters (s : str) : option str :=
  Re.star false [Re.rng " " "/"] s expect_final.

(** [s] is an ESC-prefixed sequence that has not met its final character:
    an ESC alone, or ESC, a bracket, parameters and intermediates. *)
Definition unfinished (s : str) : bool :=
  match s with
  | c :: s' =>
      Ascii.eqb ESC c
      && match s' with
         | [] => true
         | d :: s'' =>
             Ascii.eqb "[" d
             && negb (truthy (after_csi_inters (after_csi_params s'')))
         end
  | [] => false
  end.

(** The text ends inside an ESC-prefixed sequence: what follows it would
    be read as the rest of that sequence. *)
Fixpoint ends_unfinished (s : str) : bool :=
  unfinished s
  || match s with
     | _ :: s' => ends_unfinished s'
     | [] => false
     end.

(** The reading of the design document: an entry is idle once unused for
    longer than the idle timeout of its own profile (the pool's value when
    the profile names none). *)
Definition idle_by_profile (current_time : Z) (p : SSHConnectionPool.pool)
    (ci : SSHConnectionPool.conn_info)
    : bool :=
  (default (SSHConnectionPool.timeout p)
     (idle_timeout (SSHConnectionPool.config ci))
   <? current_time - SSHConnectionPool.last_used ci)%Z.

(** The clients closed in a trace. *)
Definition closed (evs : list event) : list nat :=
  omap (fun ev => match ev with CloseClient c => Some c | _ => None end) evs.

(** A pool of one connection to h:22, last used at time 0, whose profile
    asks for an idle timeout of 60 while the pool was built with 300. *)
Definition short_profile : server_config :=
  {| host := lit "h"; port := Some 22%Z;
     allowed_paths := Some [lit "/var/log"];
     max_file_size := None; idle_timeout := Some 60%Z |}.

Definition short_entry : SSHConnectionPool.conn_info :=
  {| SSHConnectionPool.client := 1;
     SSHConnectionPool.last_used := 0;
     SSHConnectionPool.config := short_profile |}.

Definition one_entry_pool : SSHConnectionPool.pool :=
  {| SSHConnectionPool.max_connections := 10;
     SSHConnectionPool.timeout := 300;
     SSHConnectionPool.connections := {[ lit "h:22" := short_entry ]} |}.

(** The events of the second loop of the clean-up over the entries [l]. *)
Definition close_events (l : list (str * SSHConnectionPool.conn_info))
    : list event :=
  l ≫= (fun kv => [CloseClient (SSHConnectionPool.client kv.2);
                    Print (lit "[SSH] Closed idle connection to " ++ kv.1)]).

(** A profile that allows /var/log, with the default size limit. *)
Definition var_log_profile : server_config :=
  {| host := lit "logs.example"; port := None;
     allowed_paths := Some [lit "/var/log"];
     max_file_size := Some 104857600%Z; idle_timeout := None |}.

(** A server whose answers to the commands of a tail are given. *)
Definition scripted (size history follow : list RemoteFileReader.outcome)
    (cmd : str) : RemoteFileReader.reply :=
  if startswith (lit "stat ") cmd then RemoteFileReader.Channels size []
  else if startswith (lit "tail -c ") cmd
       then RemoteFileReader.Channels history []
       else if startswith (lit "tail -f ") cmd
            then RemoteFileReader.Channels follow []
            else RemoteFileReader.Channels [] [].

Definition server (size history follow : list RemoteFileReader.outcome)
    : RemoteFileReader.world :=
  {| RemoteFileReader.cwd := lit "/srv/tail-f";
     RemoteFileReader.connects := true;
     RemoteFileReader.run := scripted size history follow |}.

(** A server whose session is gone: no command can be started. *)
Definition dead_channel : RemoteFileReader.world :=
  {| RemoteFileReader.cwd := lit "/srv/tail-f";
     RemoteFileReader.connects := true;
     RemoteFileReader.run := fun _ =>
       RemoteFileReader.ExecRaises (OtherError (lit "SSH session not active")) |}.

Definition line (s : string) : RemoteFileReader.outcome :=
  RemoteFileReader.Got (lit s ++ [LF]).

(** A reply is a line (possibly empty), not an exception. *)
Definition is_got (o : RemoteFileReader.outcome) : bool :=
  match o with RemoteFileReader.Got _ => true | RemoteFileReader.Boom _ => false end.

(** The events of emitting one line. *)
Definition line_events (l : str) : list event :=
  if truthy (strip l) then [Yield (strip_ansi_codes (strip l))] else [].

(** The records a reader receives for a text read from its first
    character: its lines in order, each stripped and freed of colour
    codes, blank ones left out. *)
Definition records_from_start (content : str) : list event :=
  text_lines content ≫= line_events.

(** An event that touches neither the pool nor the remote shell: a record,
    a pause or a line in the server log. *)
Definition is_quiet (ev : event) : bool :=
  match ev with
  | Yield _ | Sleep | Print _ => true
  | _ => false
  end.

(** The bytes of a text whose characters are all below code point 128: one
    byte for each, in utf-8 as in latin-1. *)
Definition ascii_bytes (s : str) : bytes := map byte_of_ascii s.

(** The codec latin-1: every byte is the character of its value. *)
Definition latin_1 (b : bytes) : str := map ascii_of_byte b.

(** The codec utf-8 on the encodings of texts below code point 256: a byte
    below 128, or a lead byte C2 or C3 and its continuation byte.  For any
    other byte the codec gives U+FFFD or a character above 255, outside the
    texts of this development; a question mark stands for it here. *)
Fixpoint utf_8 (b : bytes) : str :=
  match b with
  | [] => []
  | x :: b' =>
      let n := Byte.to_N x in
      if (n <? 128)%N then ascii_of_byte x :: utf_8 b'
      else
        match b' with
        | y :: b'' =>
            let m := Byte.to_N y in
            if ((n =? 194) || (n =? 195))%N && (128 <=? m)%N && (m <? 192)%N
            then ascii_of_N ((n - 192) * 64 + (m - 128)) :: utf_8 b''
            else "?"%char :: utf_8 b'
        | [] => ["?"%char]
        end
  end.

(** A file rewritten to two lines, twelve bytes in utf-8 (the last letter
    of the first line carries an accent), as a change notification
    finds it; the same file as a timeout finds it; and a file that is gone
    when the timeout looks. *)
Definition rewritten_file : LogManager.cycle :=
  {| LogManager.woke := LogManager.Modified;
     LogManager.getsize := Ok 12%Z;
     LogManager.reopen :=
       LogManager.Opened
         (ascii_bytes (lit "caf") ++ [Byte.xc3; Byte.xa9]
            ++ ascii_bytes ([LF] ++ lit "start" ++ [LF])) |}.

Definition polled (c : LogManager.cycle) : LogManager.cycle :=
  {| LogManager.woke := LogManager.TimedOut true;
     LogManager.getsize := LogManager.getsize c;
     LogManager.reopen := LogManager.reopen c |}.

Definition gone_file : LogManager.cycle :=
  {| LogManager.woke := LogManager.TimedOut false;
     LogManager.getsize := Raise (OSError (lit "No such file or directory"));
     LogManager.reopen :=
       LogManager.OpenRaises (OSError (lit "No such file or directory")) |}.

(* ===================================================================== *)
(** ** [backend/security.py]: [sanitize_filename] *)
(* ===================================================================== *)

(** [\w] on a code point below 256: ASCII letters, digits and underscore,
    and the Latin-1 letters and numerals. *)
Definition is_word (c : ascii) : bool :=
  between 48 57 c || between 65 90 c || between 95 95 c
  || between 97 122 c || between 170 170 c || between 178 179 c
  || between 181 181 c || between 185 186 c || between 188 190 c
  || between 192 214 c || between 216 246 c || between 248 255 c.

(** The characters the pattern [[^\w\.\-]] leaves alone. *)
Definition is_filename_char (c : ascii) : bool :=
  is_word c || Ascii.eqb c "." || Ascii.eqb c "-".

(** [sanitize_filename(filename)]: [re.sub(r'[^\w\.\-]', '_', filename)].
    The pattern is a single character set, so a match is one character and
    every character outside the set is replaced on its own. *)
Definition sanitize_filename (filename : str) : str :=
  map (fun c => if is_filename_char c then c else "_"%char) filename.

(* ===================================================================== *)
(** ** [backend/ssh_manager.py]: acquiring and releasing connections *)
(* ===================================================================== *)

Module SSHPool.

Import SSHConnectionPool.

(** The keys of the server mapping that [_create_connection] reads beside
    the host and the port.  The mapping is taken to hold [user], as it is
    taken to hold [host]: [config['user']] raises a [KeyError] otherwise,
    which [get_connection] reports like any other failure. *)
Record credentials := {
  user : str;
  auth_method : option str;
  key_path : option str;
  password : option str
}.

(** The keyword arguments of [client.connect]; the three time-outs are
    constants of the source. *)
Record connect_kwargs := {
  kw_hostname : str;
  kw_port : Z;
  kw_username : str;
  kw_key_filename : option str;
  kw_password : option str
}.

(** What the machine and the network answer. *)
Record network := {
  key_exists : str -> bool;                 (* os.path.exists(key_path) *)
  key_mode_loose : str -> bool;             (* st_mode & 0o077; os.stat is
                                               taken to succeed on a path
                                               that exists *)
  connect : connect_kwargs -> result nat;   (* the connected client, or the
                                               exception of client.connect *)
  is_active : nat -> bool                   (* transport and
                                               transport.is_active(); false
                                               also when the probe raises *)
}.

Inductive net_event :=
| Probed (client : nat)                     (* client.get_transport() *)
| Closed (client : nat)                     (* client.close() *)
| Connecting (kwargs : connect_kwargs)      (* client.connect with kwargs *)
| Printed (msg : str).                      (* print(...) *)

(** [str(x)] of an optional string in an f-string. *)
Definition show (x : option str) : str := default (lit "None") x.

(** [not x] for an optional string: absent or empty. *)
Definition falsy (x : option str) : bool :=
  match x with Some s => negb (truthy s) | None => true end.

(** [server_id = f"{host}:{port}"], the port defaulting to 22. *)
Definition server_id (cfg : server_config) : str :=
  host cfg ++ lit ":" ++ str_of_int (default 22%Z (port cfg)).

(** [_create_connection(config)] *)
Definition create_connection (net : network) (cfg : server_config)
    (cred : credentials) : list net_event * result nat :=
  let method := default (lit "key") (auth_method cred) in
  let kwargs key pass :=
    {| kw_hostname := host cfg;
       kw_port := default 22%Z (port cfg);
       kw_username := user cred;
       kw_key_filename := key;
       kw_password := pass |} in
  if PosixPath.str_eqb method (lit "key") then
    if falsy (key_path cred)
       || negb (key_exists net (default [] (key_path cred)))
    then ([], Raise (OtherError (lit "SSH key not found: "
                                   ++ show (key_path cred))))
    else
      let path := default [] (key_path cred) in
      let warning :=
        if key_mode_loose net path
        then [Printed (lit "[SSH] Warning: Key file " ++ path
                         ++ lit " has insecure permissions")]
        else [] in
      (warning ++ [Connecting (kwargs (Some path) None)],
       connect net (kwargs (Some path) None))
  else if PosixPath.str_eqb method (lit "password") then
    if falsy (password cred)
    then ([], Raise (OtherError (lit "Password not provided")))
    else
      (let kw := kwargs None (password cred) in
       ([Connecting kw], connect net kw))
  else ([], Raise (OtherError (lit "Unsupported auth method: " ++ method))).

(** The second half of [get_connection]: create, then cache or report. *)
Definition create_and_cache (net : network) (current_time : Z)
    (cfg : server_config) (cred : credentials) (p : pool)
    (conns : gmap str conn_info)
    : list net_event * pool * option nat :=
  match create_connection net cfg cred with
  | (evs, Ok new_client) =>
      (evs,
       with_connections p
         (<[server_id cfg := {| client := new_client;
                               last_used := current_time;
                               config := cfg |}]> conns),
       Some new_client)
  | (evs, Raise e) =>
      (evs ++ [Printed (lit "[SSH] Failed to connect to " ++ server_id cfg
                          ++ lit ": " ++ str_exn e)],
       with_connections p conns,
       None)
  end.

(** [get_connection(server_config)].  [current_time] is the reading of
    [time.time()] that the call makes (one on either path). *)
Definition get_connection (net : network) (current_time : Z)
    (cfg : server_config) (cred : credentials) (p : pool)
    : list net_event * pool * option nat :=
  match connections p !! server_id cfg with
  | Some conn =>
      if is_active net (client conn)
      then
        ([Probed (client conn)],
         with_connections p
           (<[server_id cfg := {| client := client conn;
                                 last_used := current_time;
                                 config := config conn |}]> (connections p)),
         Some (client conn))
      else
        let '(evs, p', r) :=
          create_and_cache net current_time cfg cred p
            (delete (server_id cfg) (connections p)) in
        (Probed (client conn) :: Closed (client conn) :: evs, p', r)
  | None => create_and_cache net current_time cfg cred p (connections p)
  end.

(** [close_all()] *)
Definition close_all (p : pool) : Trace.t pool :=
  Trace.for_each (map_to_list (connections p)).*2
    (fun conn => Trace.emit (CloseClient (client conn)));;
  mret (with_connections p ∅).

End SSHPool.

(* ===================================================================== *)
(** ** [backend/log_core.py]: [_resolve_remote_file] *)
(* ===================================================================== *)

Module Resolver.

(** An entry of a server's [logs] list, and a server of [remote_servers];
    an optional field is a key that may be absent. *)
Record log_config := {
  log_name : option str;
  log_type : option str;
  log_path : option str
}.

Record remote_server := {
  server_name : option str;
  logs : list log_config;
  profile : server_config
}.

(** The mapping [_resolve_remote_file] returns (its encoding is always
    utf-8 and its source always remote). *)
Record resolved := {
  r_path : str;
  r_server : remote_server
}.

Definition type_error : exn := OtherError (lit "TypeError").

(** The inner loop over the [logs] of one server.  A [directory] entry
    without a name is matched through the text [None], and then fails at
    [len(log_name)]; one without a path fails at [os.path.join]. *)
Fixpoint resolve_logs (remaining_path : str) (entries : list log_config)
    : result (option str) :=
  match entries with
  | [] => Ok None
  | entry :: entries' =>
      let type := default (lit "file") (log_type entry) in
      if PosixPath.str_eqb type (lit "directory")
         && startswith (SSHPool.show (log_name entry) ++ lit "/")
              remaining_path
      then
        match log_name entry, log_path entry with
        | Some name, Some base_path =>
            let rel_path := drop (length name + 1) remaining_path in
            Ok (Some (PosixPath.join2 base_path rel_path))
        | _, _ => Raise type_error
        end
      else resolve_logs remaining_path entries'
  end.

(** [_resolve_remote_file(file_name)] over the configured servers. *)
Fixpoint resolve_remote_file (servers : list remote_server)
    (file_name : str) : result (option resolved) :=
  match servers with
  | [] => Ok None
  | server :: servers' =>
      let name := default (lit "Remote") (server_name server) in
      if negb (startswith (name ++ lit "/") file_name)
      then resolve_remote_file servers' file_name
      else
        let remaining_path := drop (length name + 1) file_name in
        match resolve_logs remaining_path (logs server) with
        | Ok (Some full_path) =>
            Ok (Some {| r_path := full_path; r_server := server |})
        | Ok None => resolve_remote_file servers' file_name
        | Raise e => Raise e
        end
  end.

End Resolver.

(* ===================================================================== *)
(** ** Notions used by the further properties *)
(* ===================================================================== *)

(** What a remote tail may do once it holds a connection: yield, pause,
    print, check the follow command, and send the size query, a backlog
    read of at most 10240 bytes, or the follow command once the validator
    has passed it.  It asks for no further connection and checks no
    further path. *)
Definition tail_step (path : str) (ev : event) : Prop :=
  match ev with
  | Yield _ | Sleep | Print _ => True
  | CheckCommand c _ => c = RemoteFileReader.follow_command path
  | ExecCommand c =>
      c = RemoteFileReader.size_command path
      \/ (exists n, (1 <= n <= 10240)%Z
                    /\ c = RemoteFileReader.history_command n path)
      \/ (c = RemoteFileReader.follow_command path
          /\ validate_command c = Some true)
  | _ => False
  end.

(** A descriptor as [list_files] builds it from a line of the listing. *)
Definition descriptor_of (stdout : list RemoteFileReader.outcome)
    (d : RemoteFileReader.descriptor) : Prop :=
  RemoteFileReader.d_path d <> []
  /\ RemoteFileReader.d_name d
     = RemoteFileReader.basename (RemoteFileReader.d_path d)
  /\ (PosixPath.sep ∉ RemoteFileReader.d_name d)
  /\ (exists l, RemoteFileReader.Got l ∈ stdout
                /\ RemoteFileReader.d_path d = strip l).

(** A wake-up that cannot end the stream: the file is still there on a
    timeout, and what [getsize] or [open] raise is an [OSError]. *)
Definition benign (c : LogManager.cycle) : bool :=
  match LogManager.woke c with
  | LogManager.TimedOut still_exists => still_exists
  | LogManager.Modified =>
      match LogManager.getsize c with
      | Raise e => is_oserror e
      | Ok _ =>
          match LogManager.reopen c with
          | LogManager.OpenRaises e => is_oserror e
          | LogManager.Opened _ => true
          end
      end
  end.

Definition is_watch_start (ev : event) : bool :=
  match ev with WatchStart => true | _ => false end.

Definition is_watch_stop (ev : event) : bool :=
  match ev with WatchStop => true | _ => false end.

(** How many events of a trace satisfy a test. *)
Definition count_events (f : event -> bool) (evs : list event) : nat :=
  length (List.filter f evs).

(** The lines of the backlog replay of a file: none for an empty file, all
    of them when the file fits the window of 10240 bytes, else those of the
    text of its last 10240 bytes without the first, possibly partial,
    one. *)
Definition backlog_window (decode : bytes -> str) (content : bytes)
    : list str :=
  let size := Z.of_nat (length content) in
  if (size =? 0)%Z then []
  else if (size <=? 10240)%Z then text_lines (decode content)
  else tail (text_lines (decode (drop (Z.to_nat (size - 10240)) content))).

(** The texts the deny-list looks for anywhere in a canonical path, and
    those it looks for at its end. *)
Definition denied_anywhere : list str :=
  [lit "/etc/shadow"; lit "/etc/passwd"; lit "/root/.ssh"; lit "/proc/";
   lit "/sys/"].

Definition denied_endings : list str := [lit ".pem"; lit ".key"].

(** The connection attempts of a trace of the pool. *)
Definition attempts (evs : list SSHPool.net_event)
    : list SSHPool.connect_kwargs :=
  omap (fun ev => match ev with SSHPool.Connecting kw => Some kw | _ => None end)
    evs.

(** The clients a trace of the pool closes. *)
Definition net_closed (evs : list SSHPool.net_event) : list nat :=
  omap (fun ev => match ev with SSHPool.Closed c => Some c | _ => None end) evs.

(** A file of one accented letter and a line feed (three bytes in utf-8)
    that has grown by a line of one letter, as a change notification finds
    it. *)
Definition grown_file (new_size : Z) : LogManager.cycle :=
  {| LogManager.woke := LogManager.Modified;
     LogManager.getsize := Ok new_size;
     LogManager.reopen :=
       LogManager.Opened
         ([Byte.xc3; Byte.xa9; Byte.x0a] ++ ascii_bytes (lit "x" ++ [LF])) |}.

(** A local log of two lines in utf-8, five bytes, that sees a timeout, a
    [getsize] failing during a rotation, and then grows by a line; the
    outcome of starting the watch is left open. *)
Definition accented_log (observer : result unit) : LogManager.world :=
  {| LogManager.file_path := Some (lit "/var/log/app.log");
     LogManager.path_exists := true;
     LogManager.decode := utf_8;
     LogManager.first_open :=
       LogManager.Opened
         [Byte.xc3; Byte.xa9; Byte.x0a; Byte.x62; Byte.x0a];
     LogManager.first_size := Ok 5%Z;
     LogManager.second_size := Ok 5%Z;
     LogManager.observer := observer;
     LogManager.cycles :=
       [ {| LogManager.woke := LogManager.TimedOut true;
            LogManager.getsize := Ok 5%Z;
            LogManager.reopen := LogManager.Opened [] |};
         {| LogManager.woke := LogManager.Modified;
            LogManager.getsize := Raise (OSError (lit "rotating"));
            LogManager.reopen := LogManager.Opened [] |};
         {| LogManager.woke := LogManager.Modified;
            LogManager.getsize := Ok 7%Z;
            LogManager.reopen :=
              LogManager.Opened
                ([Byte.xc3; Byte.xa9; Byte.x0a; Byte.x62; Byte.x0a]
                   ++ ascii_bytes (lit "x" ++ [LF])) |} ] |}.

(* ===================================================================== *)
(** ** Running traces *)
(* ===================================================================== *)

Ltac run_trace :=
  unfold mbind, trace_bind, Trace.bind, Trace.emit, Trace.catch, Trace.lift,
    Trace.raise, mret, trace_ret, Trace.ret.


(** Membership in a trace that is written out. *)
Ltac absent H :=
  repeat (apply elem_of_cons in H as [? | H]; [done|]);
  by apply elem_of_nil in H.

Ltac present :=
  repeat first [ apply list_elem_of_here | apply list_elem_of_further ].


(* ===================================================================== *)
(** ** The security validator *)
(* ===================================================================== *)

Section StringFacts.

Lemma lstrip_app (x y : str) :
  lstrip (x ++ y) = match lstrip x with [] => lstrip y | l => l ++ y end.
Proof.
  induction x as [|c x IH]; simpl; [by destruct (lstrip y)|].
  destruct (isspace c); [exact IH | done].
Qed.

Lemma lstrip_all_space (ws : str) : all_space ws -> lstrip ws = [].
Proof.
  induction 1 as [|c ws Hc _ IH]; simpl; [done|]. by rewrite Hc.
Qed.

Lemma lstrip_nil_all_space (s : str) : lstrip s = [] -> all_space s.
Proof.
  induction s as [|c s IH]; simpl; [constructor|].
  destruct (isspace c) eqn:Hc; [|done].
  intros H. constructor; [done | by apply IH].
Qed.

Lemma rstrip_app (a b : str) :
  rstrip (a ++ b) = match rstrip b with [] => rstrip a | l => a ++ l end.
Proof.
  unfold rstrip. rewrite reverse_app, lstrip_app.
  destruct (lstrip (reverse b)) as [|c l]; [done|].
  rewrite reverse_app, reverse_involutive.
  destruct (reverse (c :: l)) eqn:E; [|done].
  apply (f_equal length) in E. rewrite length_reverse in E. done.
Qed.

Lemma rstrip_single (c : ascii) :
  rstrip [c] = if isspace c then [] else [c].
Proof. unfold rstrip. cbn. by destruct (isspace c). Qed.

Lemma rstrip_no_space (tok : str) :
  Forall (fun c => isspace c = false) tok -> rstrip tok = tok.
Proof.
  induction 1 as [|c tok Hc _ IH]; [done|].
  change (c :: tok) with ([c] ++ tok). rewrite rstrip_app, IH.
  destruct tok; [|done].
  by rewrite rstrip_single, Hc.
Qed.

Lemma rstrip_nil_or_same_head (c : ascii) (r : str) :
  rstrip (c :: r) = [] \/ exists r', rstrip (c :: r) = c :: r'.
Proof.
  change (c :: r) with ([c] ++ r). rewrite rstrip_app.
  destruct (rstrip r) as [|d l].
  - rewrite rstrip_single.
    destruct (isspace c); [by left | right; by exists []].
  - right. by eexists.
Qed.

Lemma split_go_token (cur tok rest : str) :
  Forall (fun c => isspace c = false) tok ->
  split_go cur (tok ++ rest) = split_go (cur ++ tok) rest.
Proof.
  intros H. revert cur.
  induction H as [|c tok Hc _ IH]; intros cur; simpl.
  - by rewrite app_nil_r.
  - rewrite Hc, IH. by rewrite <- app_assoc.
Qed.

Lemma contains_single (c : ascii) (s : str) :
  contains [c] s = true <-> c ∈ s.
Proof.
  induction s as [|d s IH]; simpl.
  - split; [done | by intros ?%elem_of_nil].
  - rewrite elem_of_cons, orb_true_iff, andb_true_r, IH.
    rewrite Ascii.eqb_eq. clear. naive_solver.
Qed.

End StringFacts.

Section ValidateCommand.

Lemma cmd_name_first_token (command tok : str) :
  first_token command tok -> cmd_name command = Some tok.
Proof.
  intros (ws & rest & -> & Hws & Hne & Htok & Hrest).
  assert (Hl : lstrip (ws ++ tok ++ rest) = tok ++ rest).
  { rewrite lstrip_app, (lstrip_all_space ws Hws).
    destruct tok as [|c tok]; [done|].
    simpl. by rewrite (Forall_inv Htok). }
  assert (Hs : exists rest',
             strip (ws ++ tok ++ rest) = tok ++ rest'
             /\ (rest' = [] \/ exists c r, rest' = c :: r /\ isspace c = true)).
  { unfold strip. rewrite Hl, rstrip_app.
    destruct Hrest as [-> | (c & r & -> & Hc)].
    - exists []. rewrite app_nil_r. split; [|by left].
      change (rstrip []) with (@nil ascii). by apply rstrip_no_space.
    - destruct (rstrip_nil_or_same_head c r) as [E | [r' E]]; rewrite E.
      + exists []. rewrite app_nil_r. split; [|by left].
        by apply rstrip_no_space.
      + exists (c :: r'). split; [done|]. right. by exists c, r'. }
  destruct Hs as (rest' & Hs & Hrest').
  unfold cmd_name. rewrite Hs.
  destruct tok as [|c tok]; [done|]. simpl truthy. cbv iota.
  unfold split. rewrite split_go_token by done. simpl app.
  destruct Hrest' as [-> | (d & r & -> & Hd)]; simpl; [done|].
  by rewrite Hd.
Qed.

Lemma cmd_name_all_space (command : str) :
  all_space command -> cmd_name command = Some [].
Proof.
  intros H. unfold cmd_name, strip.
  by rewrite (lstrip_all_space _ H).
Qed.

(** Every text is blank or has a first token. *)
Lemma first_token_exists (command : str) :
  all_space command \/ exists tok, first_token command tok.
Proof.
  induction command as [|c s IH]; [left; constructor|].
  destruct (isspace c) eqn:Hc.
  - destruct IH as [H | (tok & ws & rest & -> & Hws & Hne & Htok & Hrest)].
    + left. by constructor.
    + right. exists tok, (c :: ws), rest. repeat split; try done.
      by constructor.
  - right. destruct IH as [H | (tok & ws & rest & -> & Hws & Hne & Htok & Hrest)].
    + exists [c], [], s. repeat split; try done.
      * constructor. 
      * by constructor.
      * destruct s as [|d s]; [by left|]. right. exists d, s.
        split; [done|]. by apply (Forall_inv H).
    + destruct ws as [|d ws].
      * exists (c :: tok), [], rest. repeat split; try done.
        by constructor.
      * exists [c], [], (d :: ws ++ tok ++ rest). repeat split; try done.
        -- constructor.
        -- by constructor.
        -- right. exists d, (ws ++ tok ++ rest). split; [done|].
           by apply (Forall_inv Hws).
Qed.

Lemma no_dangerous_char (command : str) :
  existsb (fun char => contains [char] command) dangerous_chars = false
  <-> forall ch, ch ∈ dangerous_chars -> ch ∉ command.
Proof.
  rewrite <- not_true_iff_false, existsb_exists. split.
  - intros H ch Hin Hc. apply H. exists ch. split.
    + by apply list_elem_of_In.
    + by apply contains_single.
  - intros H (ch & Hin & Hc). apply (H ch).
    + by apply list_elem_of_In.
    + by apply contains_single.
Qed.

End ValidateCommand.

(** C8.  [validate_command] always returns, and returns true exactly when
    the first white-space-delimited token of the command is one of tail,
    cat, head, ls, find and the text holds none of the characters
    ; | & $ ` > < nor a line feed or carriage return.  A blank or empty
    command is refused. *)
Theorem validate_command_spec (command : str) :
  (exists b, validate_command command = Some b)
  /\ (validate_command command = Some true
      <-> (exists tok, first_token command tok
                       /\ tok ∈ [lit "tail"; lit "cat"; lit "head";
                                 lit "ls"; lit "find"])
          /\ (forall ch, ch ∈ [";"; "|"; "&"; "$"; "`"; ">"; "<";
                               "010"; "013"]%char -> ch ∉ command))
  /\ (all_space command -> validate_command command = Some false).
Proof.
  change [lit "tail"; lit "cat"; lit "head"; lit "ls"; lit "find"]
    with ALLOWED_COMMANDS.
  change [";"; "|"; "&"; "$"; "`"; ">"; "<"; "010"; "013"]%char
    with dangerous_chars.
  rewrite <- no_dangerous_char.
  unfold validate_command.
  generalize (existsb (fun char => contains [char] command) dangerous_chars).
  intros danger.
  destruct (first_token_exists command) as [Hsp | [tok Htok]].
  - rewrite (cmd_name_all_space _ Hsp). simpl.
    split; [by eexists|]. split; [|done].
    split; [done|]. intros [(tok & Htok & _) _].
    pose proof (cmd_name_first_token _ _ Htok) as E.
    rewrite (cmd_name_all_space _ Hsp) in E. injection E as <-.
    by destruct Htok as (? & ? & _ & _ & ? & _).
  - rewrite (cmd_name_first_token _ _ Htok). simpl. unfold mem.
    assert (Hblank : ~ all_space command).
    { intros Hsp. pose proof (cmd_name_first_token _ _ Htok) as E.
      rewrite (cmd_name_all_space _ Hsp) in E. injection E as <-.
      by destruct Htok as (? & ? & _ & _ & ? & _). }
    assert (Huniq : forall tok', first_token command tok' -> tok' = tok).
    { intros tok' H'. apply cmd_name_first_token in H'.
      rewrite (cmd_name_first_token _ _ Htok) in H'. by injection H'. }
    case_bool_decide as Hmem; simpl.
    + destruct danger.
      * split; [by eexists|]. split; [|done].
        split; [done | by intros [_ ?]].
      * split; [by eexists|]. split; [|done].
        split; [|done]. intros _. split; [by exists tok | done].
    + split; [by eexists|]. split; [|done].
      split; [done|]. intros [(tok' & H' & Hin) _].
      by rewrite (Huniq _ H') in Hin.
Qed.

Section ValidatePath.

Lemma startswith_prefix (p s : str) :
  startswith p s = true <-> p `prefix_of` s.
Proof.
  revert s. induction p as [|a p IH]; intros s; simpl.
  - split; [intros _; apply prefix_nil | done].
  - destruct s as [|b s].
    + split; [done | intros H; by apply prefix_nil_not in H].
    + rewrite andb_true_iff, Ascii.eqb_eq, IH. split.
      * intros [-> H]. by apply prefix_cons.
      * intros H. split; [by eapply prefix_cons_inv_1 | by eapply prefix_cons_inv_2].
Qed.

Lemma validate_path_unfold (cwd path : str) (allowed : list str) :
  validate_path cwd path allowed =
    negb (denied (canonical cwd path))
    && existsb (fun a => startswith (canonical cwd a) (canonical cwd path))
         allowed.
Proof.
  unfold validate_path, denied, canonical.
  destruct (existsb _ DANGEROUS_PATTERNS); [done|].
  by destruct allowed.
Qed.

(** Two dots in a row are found by the first deny-list pattern. *)
Lemma search_dotdot (s : str) :
  contains PosixPath.dotdot s = true ->
  Re.search true (Re.Seq (Re.Chr ".") (Re.Chr ".")) s = true.
Proof.
  change PosixPath.dotdot with ["."%char; "."%char].
  induction s as [|c s IH]; [done|].
  cbn [contains]. rewrite orb_true_iff. intros [H | H].
  - cbn [startswith] in H.
    destruct s as [|d s]; [by rewrite andb_false_r in H|].
    rewrite andb_true_r in H.
    apply andb_true_iff in H as [Hc Hd].
    apply Ascii.eqb_eq in Hc as <-. apply Ascii.eqb_eq in Hd as <-.
    reflexivity.
  - cbn [Re.search]. destruct (Re.match_at _ _ _); [done | by apply IH].
Qed.

Lemma denied_dotdot (s : str) :
  contains PosixPath.dotdot s = true -> denied s = true.
Proof.
  intros H. unfold denied, DANGEROUS_PATTERNS. cbn [existsb].
  by rewrite (search_dotdot _ H).
Qed.

End ValidatePath.

(** C3.  [validate_path] accepts exactly the paths that match no deny-list
    pattern and whose canonical text has the canonical text of an allowed
    entry as a plain string prefix; no separator is required after the
    prefix.  So with the allow-list [/var/log] the siblings
    /var/logs/app.log and /var/logXYZ/a.txt, which are not in the directory
    /var/log, are accepted. *)
Theorem validate_path_plain_prefix (cwd : str) :
  (forall path allowed,
      validate_path cwd path allowed = true
      <-> denied (canonical cwd path) = false
          /\ exists a, a ∈ allowed
                       /\ canonical cwd a `prefix_of` canonical cwd path)
  /\ (validate_path cwd (lit "/var/logs/app.log") [lit "/var/log"] = true
      /\ ~ in_directory (lit "/var/log") (canonical cwd (lit "/var/logs/app.log")))
  /\ (validate_path cwd (lit "/var/logXYZ/a.txt") [lit "/var/log"] = true
      /\ ~ in_directory (lit "/var/log") (canonical cwd (lit "/var/logXYZ/a.txt"))).
Proof.
  split; [|split].
  - intros path allowed. rewrite validate_path_unfold.
    rewrite andb_true_iff, negb_true_iff, existsb_exists.
    apply and_iff_compat_l. split.
    + intros (a & Hin & H). exists a. split; [by apply list_elem_of_In|].
      by apply startswith_prefix.
    + intros (a & Hin & H). exists a. split; [by apply list_elem_of_In|].
      by apply startswith_prefix.
  - split; [reflexivity|]. intros [H | [rest H]]; vm_compute in H; discriminate.
  - split; [reflexivity|]. intros [H | [rest H]]; vm_compute in H; discriminate.
Qed.

(** C6.  [validate_path] returns false for every path when the allow-list
    is empty, and for every path whose canonical form still contains two
    dots in a row, whatever the allow-list holds. *)
Theorem validate_path_fails_closed (cwd path : str) (allowed : list str) :
  allowed = [] \/ contains (lit "..") (canonical cwd path) = true ->
  validate_path cwd path allowed = false.
Proof.
  rewrite validate_path_unfold. intros [-> | H].
  - apply andb_false_r.
  - by rewrite (denied_dotdot _ H).
Qed.

Lemma validate_path_fails_closed_witness :
  validate_path (lit "/srv/app") (lit "/var/log/..hidden/x.log")
    [lit "/var/log"] = false.
Proof.
  apply validate_path_fails_closed. right. reflexivity.
Defined.
(* ===================================================================== *)
(** ** Colour-code stripping *)
(* ===================================================================== *)

Section StripAnsi.


Lemma star_params (s : str) :
  Re.star false ansi_params s expect_m =
    match after_params s with
    | e :: rest => if Ascii.eqb "m" e then Some rest else None
    | [] => None
    end.
Proof.
  induction s as [|c s IH]; [done|].
  cbn [Re.star after_params]. fold ansi_params. unfold is_param. fold ansi_params.
  destruct (Re.in_set false ansi_params c) eqn:Hc.
  - rewrite IH. destruct (after_params s) as [|e rest] eqn:E.
    + unfold expect_m. cbn [Re.exec Re.chr_eq].
      destruct (Ascii.eqb_spec "m" c) as [<- | _]; [done | done].
    + destruct (Ascii.eqb "m" e); [done|].
      unfold expect_m. cbn [Re.exec Re.chr_eq].
      destruct (Ascii.eqb_spec "m" c) as [<- | _]; [done | done].
  - done.
Qed.

(** Away from an ESC, the pattern matches exactly a bare colour code. *)
Lemma match_at_no_esc (c : ascii) (s : str) :
  c <> ESC ->
  Re.match_at false ANSI_ESCAPE_PATTERN (c :: s) = bare_code (c :: s).
Proof.
  intros Hc. unfold Re.match_at, ANSI_ESCAPE_PATTERN.
  cbn [Re.exec Re.chr_eq].
  destruct (Ascii.eqb_spec ESC c) as [E | _]; [congruence|].
  unfold bare_code.
  destruct (Ascii.eqb "[" c); [|by destruct s].
  destruct s as [|d s]; [done|].
  cbn [andb]. unfold is_param. fold ansi_params.
  destruct (Re.in_set false ansi_params d); [|done].
  apply star_params.
Qed.

Lemma sub_go_skip (n : nat) (x y : str) :
  length x = n ->
  Re.sub_go false ANSI_ESCAPE_PATTERN n (x ++ y)
  = Re.sub_go false ANSI_ESCAPE_PATTERN 0 y.
Proof.
  revert n. induction x as [|c x IH]; intros n <-; [done|].
  cbn [app length Re.sub_go]. by apply IH.
Qed.

(** A match at the head is dropped whole. *)
Lemma sub_go_match (c : ascii) (m rest : str) :
  Re.match_at false ANSI_ESCAPE_PATTERN ((c :: m) ++ rest) = Some rest ->
  Re.sub_go false ANSI_ESCAPE_PATTERN 0 ((c :: m) ++ rest)
  = Re.sub_go false ANSI_ESCAPE_PATTERN 0 rest.
Proof.
  intros H. cbn [app Re.sub_go]. cbn [app] in H. rewrite H.
  replace (length (c :: m ++ rest) - length rest)%nat with (S (length m))
    by (cbn [length]; rewrite length_app; cbn [length]; lia).
  by apply sub_go_skip.
Qed.

Lemma bare_code_params (digits post : str) :
  digits <> [] ->
  Forall (fun c => is_param c = true) digits ->
  bare_code ("["%char :: digits ++ "m"%char :: post) = Some post.
Proof.
  intros Hne Hall. destruct digits as [|d ds]; [done|].
  apply Forall_cons in Hall as [Hd Hds].
  cbn [app bare_code]. rewrite Hd. cbn [Ascii.eqb andb].
  replace (after_params (ds ++ "m"%char :: post)) with ("m"%char :: post).
  - done.
  - clear Hne Hd. induction Hds as [|e ds He _ IH]; [done|].
    cbn [app after_params]. by rewrite He.
Qed.

End StripAnsi.


Section StripEsc.

Lemma in_set_csi_params (c : ascii) :
  Re.in_set false [Re.rng "0" "?"] c = is_csi_param c.
Proof. by destruct c as [[|] [|] [|] [|] [|] [|] [|] [|]]. Qed.

Lemma in_set_csi_inters (c : ascii) :
  Re.in_set false [Re.rng " " "/"] c = is_csi_inter c.
Proof. by destruct c as [[|] [|] [|] [|] [|] [|] [|] [|]]. Qed.

Lemma in_set_csi_finals (c : ascii) :
  Re.in_set false [Re.rng "@" "~"] c = is_csi_final c.
Proof. by destruct c as [[|] [|] [|] [|] [|] [|] [|] [|]]. Qed.

(** The three classes are disjoint. *)
Lemma csi_param_only (c : ascii) :
  is_csi_param c = true -> is_csi_inter c = false /\ is_csi_final c = false.
Proof. by destruct c as [[|] [|] [|] [|] [|] [|] [|] [|]]. Qed.

Lemma csi_inter_only (c : ascii) :
  is_csi_inter c = true -> is_csi_param c = false /\ is_csi_final c = false.
Proof. by destruct c as [[|] [|] [|] [|] [|] [|] [|] [|]]. Qed.

Lemma csi_final_only (c : ascii) :
  is_csi_final c = true -> is_csi_param c = false /\ is_csi_inter c = false.
Proof. by destruct c as [[|] [|] [|] [|] [|] [|] [|] [|]]. Qed.

Lemma expect_final_spec (s : str) :
  expect_final s =
    match s with
    | f :: rest => if is_csi_final f then Some rest else None
    | [] => None
    end.
Proof.
  unfold expect_final. cbn [Re.exec]. destruct s as [|f rest]; [done|].
  by rewrite in_set_csi_finals.
Qed.

(** Giving characters back never helps: an intermediate is no final
    character, and a parameter neither that nor an intermediate. *)
Lemma star_csi_inters (s : str) :
  expect_inters s =
    match after_csi_inters s with
    | f :: rest => if is_csi_final f then Some rest else None
    | [] => None
    end.
Proof.
  unfold expect_inters.
  induction s as [|c s IH]; [done|].
  cbn [Re.star after_csi_inters]. rewrite in_set_csi_inters.
  destruct (is_csi_inter c) eqn:Hc; [|by rewrite expect_final_spec].
  rewrite IH.
  destruct (after_csi_inters s) as [|f rest].
  - rewrite expect_final_spec.
    by destruct (csi_inter_only c Hc) as [_ ->].
  - destruct (is_csi_final f); [done|].
    rewrite expect_final_spec.
    by destruct (csi_inter_only c Hc) as [_ ->].
Qed.

Lemma star_csi_params (s : str) :
  Re.star false [Re.rng "0" "?"] s expect_inters =
    match after_csi_inters (after_csi_params s) with
    | f :: rest => if is_csi_final f then Some rest else None
    | [] => None
    end.
Proof.
  induction s as [|c s IH].
  - cbn [Re.star after_csi_params]. by rewrite star_csi_inters.
  - cbn [Re.star after_csi_params]. rewrite in_set_csi_params.
    destruct (is_csi_param c) eqn:Hc; [|by rewrite star_csi_inters].
    rewrite IH.
    assert (Hback : expect_inters (c :: s) = None).
    { rewrite star_csi_inters. cbn [after_csi_inters].
      by destruct (csi_param_only c Hc) as [-> ->]. }
    destruct (after_csi_inters (after_csi_params s)) as [|f rest];
      [done|].
    by destruct (is_csi_final f).
Qed.

(** At an ESC the pattern matches exactly an ESC-prefixed sequence. *)
Lemma match_at_esc (s : str) :
  Re.match_at false ANSI_ESCAPE_PATTERN (ESC :: s) = esc_code (ESC :: s).
Proof.
  unfold Re.match_at, ANSI_ESCAPE_PATTERN, esc_code.
  cbn [Re.exec Re.chr_eq].
  change (Ascii.eqb ESC ESC) with true. cbn [andb].
  change (Ascii.eqb "[" ESC) with false.
  destruct s as [|d s]; [done|].
  destruct (Ascii.eqb "[" d); [|done].
  change (Re.star false [Re.rng "0" "?"] s
            (fun s1 => Re.star false [Re.rng " " "/"] s1
                         (fun s2 => Re.exec false (Re.Set_ [Re.rng "@" "~"])
                                      s2 Some)))
    with (Re.star false [Re.rng "0" "?"] s expect_inters).
  rewrite star_csi_params.
  destruct (after_csi_inters (after_csi_params s)) as [|f rest]; [done|].
  by destruct (is_csi_final f).
Qed.

(** The pattern read off as a function: an ESC-prefixed sequence at an
    ESC, a bare code elsewhere. *)
Lemma match_at_spec (c : ascii) (s : str) :
  Re.match_at false ANSI_ESCAPE_PATTERN (c :: s)
  = if Ascii.eqb ESC c then esc_code (c :: s) else bare_code (c :: s).
Proof.
  destruct (Ascii.eqb_spec ESC c) as [<- | Hc].
  - apply match_at_esc.
  - by apply match_at_no_esc.
Qed.

(** A character [b] that belongs to no class and is not the letter m ends
    every run before it, as the end of the text does. *)
Lemma after_params_stop (b : ascii) (x tail : str) :
  is_param b = false ->
  after_params (x ++ b :: tail) =
    match after_params x with
    | [] => b :: tail
    | l => l ++ b :: tail
    end.
Proof.
  intros Hb. induction x as [|c x IH];
    [cbn [app after_params]; by rewrite Hb|].
  cbn [app after_params]. by destruct (is_param c).
Qed.

Lemma after_csi_params_stop (b : ascii) (x tail : str) :
  is_csi_param b = false ->
  after_csi_params (x ++ b :: tail) =
    match after_csi_params x with
    | [] => b :: tail
    | l => l ++ b :: tail
    end.
Proof.
  intros Hb. induction x as [|c x IH];
    [cbn [app after_csi_params]; by rewrite Hb|].
  cbn [app after_csi_params]. by destruct (is_csi_param c).
Qed.

Lemma after_csi_inters_stop (b : ascii) (x tail : str) :
  is_csi_inter b = false ->
  after_csi_inters (x ++ b :: tail) =
    match after_csi_inters x with
    | [] => b :: tail
    | l => l ++ b :: tail
    end.
Proof.
  intros Hb. induction x as [|c x IH];
    [cbn [app after_csi_inters]; by rewrite Hb|].
  cbn [app after_csi_inters]. by destruct (is_csi_inter c).
Qed.

Lemma after_csi_stop (b : ascii) (x tail : str) :
  is_csi_param b = false ->
  is_csi_inter b = false ->
  after_csi_inters (after_csi_params (x ++ b :: tail)) =
    match after_csi_inters (after_csi_params x) with
    | [] => b :: tail
    | l => l ++ b :: tail
    end.
Proof.
  intros Hp Hi. rewrite after_csi_params_stop by done.
  destruct (after_csi_params x) as [|c l].
  - cbn [after_csi_inters]. by rewrite Hi.
  - change ((c :: l) ++ b :: tail) with ((c :: l) ++ b :: tail).
    by rewrite after_csi_inters_stop.
Qed.

Lemma bare_code_stop (b c : ascii) (x tail : str) :
  is_param b = false ->
  b <> "m"%char ->
  bare_code ((c :: x) ++ b :: tail) =
    (fun rest => rest ++ b :: tail) <$> bare_code (c :: x).
Proof.
  intros Hb Hm. destruct x as [|d x].
  - cbn [app bare_code]. rewrite Hb. by rewrite andb_false_r.
  - cbn [app bare_code].
    destruct (Ascii.eqb "[" c && is_param d); [|done].
    rewrite after_params_stop by done.
    destruct (after_params x) as [|e rest].
    + by destruct (Ascii.eqb_spec "m" b) as [<- | _].
    + cbn [app]. by destruct (Ascii.eqb "m" e).
Qed.

(** An ESC is never inside a match: the text before it is matched as if it
    ended there. *)
Lemma esc_code_before_esc (c : ascii) (x tail : str) :
  esc_code ((c :: x) ++ ESC :: tail) =
    (fun rest => rest ++ ESC :: tail) <$> esc_code (c :: x).
Proof.
  destruct x as [|d x].
  - cbn [app esc_code]. change (Ascii.eqb "[" ESC) with false.
    by rewrite andb_false_r.
  - cbn [app esc_code].
    destruct (Ascii.eqb ESC c && Ascii.eqb "[" d); [|done].
    rewrite after_csi_stop by done.
    destruct (after_csi_inters (after_csi_params x)) as [|f rest]; [done|].
    cbn [app]. by destruct (is_csi_final f).
Qed.

Lemma match_at_before_esc (c : ascii) (x tail : str) :
  Re.match_at false ANSI_ESCAPE_PATTERN ((c :: x) ++ ESC :: tail) =
    (fun rest => rest ++ ESC :: tail)
      <$> Re.match_at false ANSI_ESCAPE_PATTERN (c :: x).
Proof.
  change ((c :: x) ++ ESC :: tail) with (c :: (x ++ ESC :: tail)).
  rewrite !match_at_spec.
  change (c :: (x ++ ESC :: tail)) with ((c :: x) ++ ESC :: tail).
  destruct (Ascii.eqb ESC c).
  - apply esc_code_before_esc.
  - by apply bare_code_stop.
Qed.

(** A bracket is inside a match that starts before it only as the final
    character of an unfinished ESC-prefixed sequence. *)
Lemma esc_code_before_bracket (c : ascii) (x tail : str) :
  unfinished (c :: x) = false ->
  esc_code ((c :: x) ++ "["%char :: tail) =
    (fun rest => rest ++ "["%char :: tail) <$> esc_code (c :: x).
Proof.
  unfold unfinished. intros Hu. destruct x as [|d x].
  - rewrite andb_true_r in Hu. cbn [app esc_code]. by rewrite Hu.
  - cbn [app esc_code].
    destruct (Ascii.eqb ESC c); [|done].
    destruct (Ascii.eqb "[" d); [|done]. cbn [andb] in *.
    rewrite after_csi_stop by done.
    destruct (after_csi_inters (after_csi_params x)) as [|f rest]; [done|].
    cbn [app]. by destruct (is_csi_final f).
Qed.

Lemma match_at_before_bracket (c : ascii) (x tail : str) :
  unfinished (c :: x) = false ->
  Re.match_at false ANSI_ESCAPE_PATTERN ((c :: x) ++ "["%char :: tail) =
    (fun rest => rest ++ "["%char :: tail)
      <$> Re.match_at false ANSI_ESCAPE_PATTERN (c :: x).
Proof.
  intros Hu.
  change ((c :: x) ++ "["%char :: tail) with (c :: (x ++ "["%char :: tail)).
  rewrite !match_at_spec.
  change (c :: (x ++ "["%char :: tail)) with ((c :: x) ++ "["%char :: tail).
  destruct (Ascii.eqb ESC c).
  - by apply esc_code_before_bracket.
  - by apply bare_code_stop.
Qed.

(** The scan of a text is that of a first part followed by that of the
    rest, when no match that starts in the first part reaches into the
    rest. *)
Lemma sub_go_split (b : ascii) (pre tail : str) (skip : nat) :
  (forall c x y, pre = y ++ c :: x ->
     Re.match_at false ANSI_ESCAPE_PATTERN ((c :: x) ++ b :: tail) =
       (fun rest => rest ++ b :: tail)
         <$> Re.match_at false ANSI_ESCAPE_PATTERN (c :: x)) ->
  (skip <= length pre)%nat ->
  Re.sub_go false ANSI_ESCAPE_PATTERN skip (pre ++ b :: tail)
  = Re.sub_go false ANSI_ESCAPE_PATTERN skip pre
    ++ Re.sub_go false ANSI_ESCAPE_PATTERN 0 (b :: tail).
Proof.
  remember (Re.sub_go false ANSI_ESCAPE_PATTERN 0 (b :: tail))
    as stripped_tail eqn:Etail.
  revert skip. induction pre as [|c pre IH]; intros skip Hm Hskip.
  - cbn [length] in Hskip. replace skip with 0%nat by lia. by subst.
  - assert (Hm' : forall c' x y, pre = y ++ c' :: x ->
              Re.match_at false ANSI_ESCAPE_PATTERN ((c' :: x) ++ b :: tail) =
                (fun rest => rest ++ b :: tail)
                  <$> Re.match_at false ANSI_ESCAPE_PATTERN (c' :: x)).
    { intros c' x y ->. by apply (Hm c' x (c :: y)). }
    destruct skip as [|n].
    + pose proof (Hm c pre [] eq_refl) as Hc.
      change ((c :: pre) ++ b :: tail) with (c :: (pre ++ b :: tail)) in *.
      cbn [Re.sub_go]. rewrite Hc.
      destruct (Re.match_at false ANSI_ESCAPE_PATTERN (c :: pre))
        as [rest|] eqn:E; cbn [fmap option_fmap option_map].
      * rewrite !length_app.
        replace (length (c :: (pre ++ b :: tail))
                 - (length rest + length (b :: tail)))%nat
          with (length (c :: pre) - length rest)%nat
          by (cbn [length]; rewrite length_app; cbn [length]; lia).
        destruct (length (c :: pre) - length rest)%nat as [|n] eqn:En.
        -- cbn [app]. f_equal. by apply IH; [|lia].
        -- apply IH; [done|]. cbn [length] in En. lia.
      * cbn [app]. f_equal. by apply IH; [|lia].
    + cbn [app Re.sub_go]. apply IH; [done|]. cbn [length] in Hskip. lia.
Qed.

Lemma ends_unfinished_suffix (y x : str) :
  ends_unfinished (y ++ x) = false -> unfinished x = false.
Proof.
  induction y as [|c y IH]; cbn [app].
  - destruct x; cbn [ends_unfinished]; by intros [? _]%orb_false_iff.
  - cbn [ends_unfinished]. intros [_ H]%orb_false_iff. by apply IH.
Qed.

Lemma after_csi_params_all (params rest : str) :
  Forall (fun c => is_csi_param c = true) params ->
  after_csi_params (params ++ rest) = after_csi_params rest.
Proof.
  induction 1 as [|c params Hc _ IH]; [done|].
  cbn [app after_csi_params]. by rewrite Hc.
Qed.

Lemma after_csi_inters_all (inters rest : str) :
  Forall (fun c => is_csi_inter c = true) inters ->
  after_csi_inters (inters ++ rest) = after_csi_inters rest.
Proof.
  induction 1 as [|c inters Hc _ IH]; [done|].
  cbn [app after_csi_inters]. by rewrite Hc.
Qed.

(** A text without ESC does not end inside an ESC-prefixed sequence. *)
Lemma no_esc_ends_finished (s : str) :
  ESC ∉ s -> ends_unfinished s = false.
Proof.
  induction s as [|c s IH]; [done|].
  intros [Hc Hs]%not_elem_of_cons. cbn [ends_unfinished unfinished].
  rewrite (IH Hs), orb_false_r.
  by destruct (Ascii.eqb_spec ESC c) as [E | _]; [congruence|].
Qed.

(** An ESC-prefixed sequence at the head of a text is matched whole. *)
Lemma esc_sequence_match (seq post : str) :
  esc_sequence seq ->
  exists m, seq = ESC :: m
            /\ Re.match_at false ANSI_ESCAPE_PATTERN ((ESC :: m) ++ post)
               = Some post.
Proof.
  intros (params & inters & final & -> & Hp & Hi & Hf).
  eexists. split; [reflexivity|].
  cbn [app]. rewrite match_at_esc. cbn [esc_code].
  change (Ascii.eqb ESC ESC && Ascii.eqb "[" "[") with true. cbn iota.
  destruct (csi_final_only final Hf) as [Hfp Hfi].
  replace (after_csi_inters
             (after_csi_params ((params ++ inters ++ [final]) ++ post)))
    with (final :: post); [by rewrite Hf|].
  rewrite <- !app_assoc. cbn [app].
  rewrite after_csi_params_all by done.
  assert (Hstay : after_csi_params (inters ++ final :: post)
                  = inters ++ final :: post).
  { destruct Hi as [|c inters Hc Hi]; cbn [app after_csi_params].
    - by rewrite Hfp.
    - by destruct (csi_inter_only c Hc) as [-> _]. }
  rewrite Hstay, after_csi_inters_all by done.
  cbn [after_csi_inters]. by rewrite Hfi.
Qed.

End StripEsc.

Example strip_ansi_codes_esc_prefixed :
  strip_ansi_codes (ESC :: lit "[0;31mred" ++ ESC :: lit "[0m") = lit "red".
Proof. reflexivity. Qed.

(** After an unfinished ESC-prefixed sequence the bracket of a bare code
    is taken for its final character, and the rest of the code stays. *)
Example strip_ansi_codes_after_unfinished :
  strip_ansi_codes (ESC :: lit "[" ++ lit "[31m") = lit "31m".
Proof. reflexivity. Qed.

(** C10.  [strip_ansi_codes] removes the ESC-prefixed sequences (ESC, a
    bracket, parameters, intermediates, a final character) wherever they
    stand, and also every bare bracket, digits or semicolons, and letter m
    that does not follow an unfinished ESC-prefixed sequence: the line is
    emitted without that substring, whatever ESC characters came earlier. *)
Theorem strip_ansi_codes_removes (pre post : str) :
  (forall seq,
      esc_sequence seq ->
      strip_ansi_codes (pre ++ seq ++ post)
      = strip_ansi_codes pre ++ strip_ansi_codes post)
  /\ (forall digits,
         ends_unfinished pre = false ->
         digits <> [] ->
         Forall (fun c => is_param c = true) digits ->
         strip_ansi_codes (pre ++ lit "[" ++ digits ++ lit "m" ++ post)
         = strip_ansi_codes pre ++ strip_ansi_codes post).
Proof.
  unfold strip_ansi_codes, Re.sub_empty. split.
  - intros seq Hseq.
    destruct (esc_sequence_match seq post Hseq) as (m & -> & Hm).
    change ((ESC :: m) ++ post) with (ESC :: (m ++ post)).
    rewrite sub_go_split.
    + f_equal. change (ESC :: (m ++ post)) with ((ESC :: m) ++ post).
      by apply sub_go_match.
    + intros c x y _. apply match_at_before_esc.
    + cbn [length]. lia.
  - intros digits Hpre Hne Hall.
    change (lit "[" ++ digits ++ lit "m" ++ post)
      with ("["%char :: digits ++ "m"%char :: post).
    rewrite sub_go_split.
    + f_equal.
      assert (Hm : Re.match_at false ANSI_ESCAPE_PATTERN
                     ("["%char :: digits ++ "m"%char :: post) = Some post).
      { rewrite match_at_no_esc by done. by apply bare_code_params. }
      replace ("["%char :: digits ++ "m"%char :: post)
        with (("["%char :: digits ++ ["m"%char]) ++ post) in *
        by (cbn [app]; by rewrite <- app_assoc).
      by apply sub_go_match.
    + intros c x y ->. apply match_at_before_bracket.
      by apply (ends_unfinished_suffix y).
    + cbn [length]. lia.
Qed.

Lemma strip_ansi_codes_removes_witness :
  strip_ansi_codes (lit "level " ++ lit "[" ++ lit "2;10" ++ lit "m"
                      ++ lit " reached")
  = lit "level  reached"
  /\ strip_ansi_codes (lit "[31m") = []
  /\ strip_ansi_codes ((lit "a" ++ ESC :: lit "b") ++ lit "[" ++ lit "31"
                         ++ lit "m" ++ lit "c")
     = lit "a" ++ ESC :: lit "bc"
  /\ strip_ansi_codes (lit "x" ++ (ESC :: lit "[0;31m") ++ lit "red")
     = lit "xred".
Proof.
  split; [|split; [|split]].
  - apply (proj2 (strip_ansi_codes_removes (lit "level ") (lit " reached"))
             (lit "2;10")).
    + reflexivity.
    + discriminate.
    + repeat constructor.
  - apply (proj2 (strip_ansi_codes_removes [] []) (lit "31")).
    + reflexivity.
    + discriminate.
    + repeat constructor.
  - apply (proj2 (strip_ansi_codes_removes (lit "a" ++ ESC :: lit "b")
                    (lit "c"))
             (lit "31")).
    + reflexivity.
    + discriminate.
    + repeat constructor.
  - apply (proj1 (strip_ansi_codes_removes (lit "x") (lit "red"))
             (ESC :: lit "[0;31m")).
    exists (lit "0;31"), [], "m"%char.
    split; [reflexivity|]. split; [repeat constructor|].
    split; [constructor | reflexivity].
Defined.

(* ===================================================================== *)
(** ** The connection pool *)
(* ===================================================================== *)

Section Pool.

Import SSHConnectionPool.

Lemma remove_all_spec (conns : gmap str conn_info)
    (l : list (str * conn_info)) :
  NoDup l.*1 ->
  (forall sid ci, (sid, ci) ∈ l -> conns !! sid = Some ci) ->
  exists conns',
    remove_all conns l.*1 = (close_events l, Ok conns')
    /\ forall sid,
         conns' !! sid = if decide (sid ∈ l.*1) then None else conns !! sid.
Proof.
  revert conns. induction l as [|[sid ci] l IH]; intros conns Hnd Hin.
  - exists conns. split; [done|]. intros sid.
    case_decide as H; [by apply elem_of_nil in H | done].
  - rewrite fmap_cons in Hnd. apply NoDup_cons in Hnd as [Hfresh Hnd].
    destruct (IH (delete sid conns) Hnd) as (conns' & Hrun & Hlk).
    { intros sid' ci' H'. rewrite lookup_delete_ne.
      - apply Hin. by right.
      - intros ->. apply Hfresh. apply list_elem_of_fmap.
        by exists (sid', ci'). }
    exists conns'. split.
    + cbn [fmap list_fmap remove_all fst]. unfold remove_one.
      rewrite (Hin sid ci) by left.
      unfold mbind, trace_bind, Trace.bind, Trace.emit, mret, trace_ret,
        Trace.ret.
      by rewrite Hrun.
    + intros sid'. rewrite Hlk. cbn [fmap list_fmap fst].
      destruct (decide (sid' = sid)) as [-> | Hne].
      * rewrite lookup_delete_eq.
        rewrite (decide_True (P := sid ∈ sid :: l.*1)) by left.
        by case_decide.
      * rewrite lookup_delete_ne by done.
        case_decide as H1; case_decide as H2; try done.
        -- exfalso. apply H2. by right.
        -- apply elem_of_cons in H2 as [? | ?]; done.
Qed.

Lemma to_remove_elem (current_time : Z) (p : pool) (sid : str) :
  sid ∈ to_remove current_time p
  <-> exists ci, connections p !! sid = Some ci
                 /\ is_idle current_time p ci = true.
Proof.
  unfold to_remove. rewrite list_elem_of_fmap. split.
  - intros ([sid' ci] & -> & H). apply list_elem_of_filter in H as [Hi H].
    exists ci. split; [by apply elem_of_map_to_list | done].
  - intros (ci & Hlk & Hi). exists (sid, ci). split; [done|].
    apply list_elem_of_filter. split; [done|].
    by apply elem_of_map_to_list.
Qed.

Lemma closed_close_events (l : list (str * conn_info)) :
  closed (close_events l) = client <$> l.*2.
Proof.
  induction l as [|[sid ci] l IH]; [done|].
  cbn -[lit]. by f_equal.
Qed.

Lemma idle_entries (current_time : Z) (p : pool)
    (l : list (str * conn_info)) :
  (filter (fun kv => is_idle current_time p kv.2 = true) l).*2
  = filter (fun ci => (timeout p < current_time - last_used ci)%Z) l.*2.
Proof.
  induction l as [|[sid ci] l IH]; [done|].
  rewrite fmap_cons, !filter_cons. cbn [snd].
  assert (Hiff : is_idle current_time p ci = true
                 <-> (timeout p < current_time - last_used ci)%Z)
    by apply Z.ltb_lt.
  case_decide as H1; case_decide as H2; try tauto.
  rewrite fmap_cons. cbn [snd]. by f_equal.
Qed.

End Pool.

Import SSHConnectionPool.

(** C9 (amended).  [cleanup_idle_connections] removes and closes exactly
    the pooled entries that have been idle longer than the single timeout
    the pool was built with, the same for every entry whatever its profile
    says, and leaves all other entries unchanged. *)
Theorem cleanup_idle_connections_spec (current_time : Z) (p : pool) :
  exists evs conns',
    cleanup_idle_connections current_time p
    = (evs, Ok (with_connections p conns'))
    /\ (forall sid,
          conns' !! sid =
            match connections p !! sid with
            | Some ci =>
                if (timeout p <? current_time - last_used ci)%Z then None
                else Some ci
            | None => None
            end)
    /\ closed evs ≡ₚ
         client <$> filter
                      (fun ci => (timeout p < current_time - last_used ci)%Z)
                      (map_to_list (connections p)).*2.
Proof.
  set (l := filter (fun kv => is_idle current_time p kv.2 = true)
              (map_to_list (connections p))).
  destruct (remove_all_spec (connections p) l) as (conns' & Hrun & Hlk).
  { apply NoDup_fmap_fst.
    - intros sid c1 c2 [_ H1]%list_elem_of_filter [_ H2]%list_elem_of_filter.
      apply elem_of_map_to_list in H1, H2. congruence.
    - apply NoDup_filter, NoDup_map_to_list. }
  { intros sid ci [_ H]%list_elem_of_filter. by apply elem_of_map_to_list. }
  exists (close_events l), conns'. split; [|split].
  - unfold cleanup_idle_connections. fold l in Hrun |- *.
    change (to_remove current_time p) with l.*1. rewrite Hrun.
    unfold mbind, trace_bind, Trace.bind, mret, trace_ret, Trace.ret.
    by rewrite app_nil_r.
  - intros sid. rewrite Hlk.
    change l.*1 with (to_remove current_time p).
    destruct (connections p !! sid) as [ci|] eqn:E.
    + fold (is_idle current_time p ci).
      destruct (is_idle current_time p ci) eqn:Hi.
      * rewrite decide_True; [done|]. apply to_remove_elem. by exists ci.
      * rewrite decide_False; [done|].
        intros (ci' & E' & Hi')%to_remove_elem. congruence.
    + by case_decide.
  - rewrite closed_close_events. unfold l. by rewrite idle_entries.
Qed.

(** C9, as stated, fails: an entry idle for 100 with a profile timeout of
    60, in a pool built with 300, is neither closed nor removed. *)
Lemma cleanup_ignores_profile_timeout :
  connections one_entry_pool !! lit "h:22" = Some short_entry
  /\ idle_by_profile 100 one_entry_pool short_entry = true
  /\ cleanup_idle_connections 100 one_entry_pool = ([], Ok one_entry_pool).
Proof.
  split; [|split].
  - reflexivity.
  - reflexivity.
  - vm_compute. reflexivity.
Qed.

(* ===================================================================== *)
(** ** The remote tail adapter *)
(* ===================================================================== *)

Lemma emit_line_run (l : str) : emit_line l = (line_events l, Ok tt).
Proof. unfold emit_line, line_events. by destruct (truthy (strip l)). Qed.

Section RemoteTail.

Import RemoteFileReader.

Lemma cmd_name_stat (path : str) :
  cmd_name (size_command path) = Some (lit "stat").
Proof.
  apply cmd_name_first_token.
  exists [], (lit " -c %s " ++ path ++ lit " 2>/dev/null || echo 0").
  repeat split.
  - constructor.
  - discriminate.
  - repeat constructor.
  - right. by eexists _, _.
Qed.

(** The size query is not a command the validator would let through. *)
Lemma size_command_refused (path : str) :
  validate_command (size_command path) = Some false.
Proof. unfold validate_command. by rewrite cmd_name_stat. Qed.

Lemma clear_command_refused (path : str) :
  validate_command (clear_command path) = Some false.
Proof.
  unfold validate_command.
  replace (cmd_name (clear_command path)) with (Some (lit "truncate"));
    [done|].
  symmetry. apply cmd_name_first_token.
  exists [], (lit " -s 0 " ++ path).
  repeat split.
  - constructor.
  - discriminate.
  - repeat constructor.
  - right. by eexists _, _.
Qed.

(** The follow loop never raises, and a failing read ends it with
    nothing but a line in the server log. *)
Lemma follow_read_error (pre post : list outcome) (e : exn) :
  forallb is_got pre = true ->
  exists evs,
    follow pre = (evs, Ok Following)
    /\ follow (pre ++ Boom e :: post)
       = (evs ++ [Print (lit "[SSH] Error reading line: " ++ str_exn e)],
          Ok Ended).
Proof.
  induction pre as [|[l | e'] pre IH]; intros Hpre; [by exists []| |done].
  destruct (IH Hpre) as (evs & H1 & H2).
  cbn [follow app]. rewrite H1, H2.
  rewrite emit_line_run. destruct (truthy l).
  - exists (line_events l ++ evs).
    split; run_trace; [done | by rewrite <- app_assoc].
  - exists (Sleep :: evs). split; run_trace; done.
Qed.

(** The follow loop only yields, pauses and prints. *)
Lemma follow_quiet (script : list outcome) :
  forallb is_quiet (follow script).1 = true.
Proof.
  induction script as [|[l | e] script IH]; cbn [follow]; [done| |done].
  rewrite emit_line_run. run_trace.
  destruct (follow script) as [evs r]. cbn [fst] in IH.
  destruct (truthy l); cbn [fst app forallb is_quiet andb]; [|done].
  rewrite forallb_app, IH, andb_true_r.
  unfold line_events. by destruct (truthy (strip l)).
Qed.

Lemma follow_never_raises (script : list outcome) :
  exists evs st, follow script = (evs, Ok st).
Proof.
  induction script as [|[l | e] script (evs & st & IH)]; cbn [follow].
  - by eexists _, _.
  - rewrite IH, emit_line_run.
    destruct (truthy l); run_trace; by eexists _, _.
  - run_trace. by eexists _, _.
Qed.

End RemoteTail.

(** C4.  A remote tail whose target path fails [validate_path] against the
    profile's allowed prefixes performs exactly two events: the failed
    check and the yield of one [SECURITY] record; then it has ended.  No
    connection is acquired and no remote command is issued. *)
Theorem tail_file_path_denied (w : RemoteFileReader.world)
    (cfg : server_config) (file_path : str) :
  validate_path (RemoteFileReader.cwd w) file_path
    (default [] (allowed_paths cfg)) = false ->
  RemoteFileReader.tail_file w cfg file_path
  = ([CheckPath file_path false;
      Yield (lit "[SECURITY] Access denied: " ++ file_path)],
     Ok Ended).
Proof.
  intros H. unfold RemoteFileReader.tail_file. rewrite H. reflexivity.
Qed.

Lemma tail_file_path_denied_witness :
  RemoteFileReader.tail_file (server [] [] []) var_log_profile
    (lit "/etc/passwd")
  = ([CheckPath (lit "/etc/passwd") false;
      Yield (lit "[SECURITY] Access denied: /etc/passwd")],
     Ok Ended).
Proof.
  apply (tail_file_path_denied (server [] [] []) var_log_profile
           (lit "/etc/passwd")).
  reflexivity.
Defined.

(** C5.  In a remote tail only a size query that fails on the remote
    side falls back to 0: an empty answer, and the 0 that the query's own
    [|| echo 0] prints when stat fails, both give size 0, and with size 0
    the stream goes straight on to the follow command.  A query that fails
    on the engine's side (the command cannot be started, the answer cannot
    be read, or it is no decimal number of at most 4300 digits) does not
    fall back: the stream yields one [ERROR] Failed to read remote file
    record and ends.  When the reported size fails [check_file_size]
    against the profile's maximum, the stream yields one [ERROR] record
    that cites the size and the maximum and ends.  In both cases the size
    query is the only command issued, no tail command follows. *)
Theorem tail_file_size_gate (w : RemoteFileReader.world)
    (cfg : server_config) (file_path : str) :
  validate_path (RemoteFileReader.cwd w) file_path
    (default [] (allowed_paths cfg)) = true ->
  RemoteFileReader.connects w = true ->
  let max_size :=
    default RemoteFileReader.default_max_file_size (max_file_size cfg) in
  let query :=
    [CheckPath file_path true;
     GetConnection;
     ExecCommand (RemoteFileReader.size_command file_path)] in
  let failed e :=
    (query ++ [Yield (lit "[ERROR] Failed to read remote file: "
                        ++ str_exn e)],
     Ok Ended) in
  match RemoteFileReader.run w (RemoteFileReader.size_command file_path) with
  | RemoteFileReader.ExecRaises e =>
      RemoteFileReader.tail_file w cfg file_path = failed e
  | RemoteFileReader.Channels out err =>
      (forall text,
          RemoteFileReader.read out = Ok text ->
          strip text = [] \/ strip text = lit "0" ->
          RemoteFileReader.parse_size out = Ok 0%Z)
      /\ (forall e,
             RemoteFileReader.read out = Raise e ->
             RemoteFileReader.parse_size out = Raise e)
      /\ (forall text,
             RemoteFileReader.read out = Ok text ->
             strip text <> [] ->
             RemoteFileReader.parse_size out = int (strip text))
      /\ match RemoteFileReader.parse_size out with
         | Raise e => RemoteFileReader.tail_file w cfg file_path = failed e
         | Ok file_size =>
             (check_file_size file_size max_size = false ->
              RemoteFileReader.tail_file w cfg file_path
              = (query
                   ++ [Yield (lit "[ERROR] File too large: "
                                ++ str_of_int file_size
                                ++ lit " bytes (max: "
                                ++ str_of_int max_size ++ lit ")")],
                 Ok Ended))
             /\ (file_size = 0%Z ->
                 (0 <= max_size)%Z ->
                 forall script ferr,
                   validate_command
                     (RemoteFileReader.follow_command file_path)
                   = Some true ->
                   RemoteFileReader.run w
                     (RemoteFileReader.follow_command file_path)
                   = RemoteFileReader.Channels script ferr ->
                   RemoteFileReader.tail_file w cfg file_path
                   = (query
                        ++ CheckCommand
                             (RemoteFileReader.follow_command file_path) true
                        :: ExecCommand
                             (RemoteFileReader.follow_command file_path)
                        :: (RemoteFileReader.follow script).1,
                      (RemoteFileReader.follow script).2))
         end
  end.
Proof.
  intros Hpath Hconn max_size query failed.
  destruct (RemoteFileReader.run w (RemoteFileReader.size_command file_path))
    as [e | out err] eqn:Hrun.
  { unfold RemoteFileReader.tail_file, RemoteFileReader.exec_command.
    rewrite Hpath, Hconn, Hrun. reflexivity. }
  split; [|split; [|split]].
  - intros text Hread Htext. unfold RemoteFileReader.parse_size.
    rewrite Hread. by destruct Htext as [-> | ->].
  - intros e Hread. unfold RemoteFileReader.parse_size. by rewrite Hread.
  - intros text Hread Htext. unfold RemoteFileReader.parse_size.
    rewrite Hread. by destruct (strip text).
  - destruct (RemoteFileReader.parse_size out) as [file_size | e] eqn:Hsize.
    2:{ unfold RemoteFileReader.tail_file, RemoteFileReader.exec_command.
        rewrite Hpath, Hconn, Hrun. cbn [negb].
        run_trace. cbn [fst app]. by rewrite Hsize. }
    split.
    + intros Hcheck.
      unfold RemoteFileReader.tail_file, RemoteFileReader.exec_command.
      rewrite Hpath, Hconn, Hrun. cbn [negb].
      run_trace. cbn [fst app]. rewrite Hsize. fold max_size.
      rewrite Hcheck. reflexivity.
    + intros -> Hmax script ferr Hcmd Hfollow.
      unfold RemoteFileReader.tail_file, RemoteFileReader.exec_command,
        RemoteFileReader.check_command.
      rewrite Hpath, Hconn, Hrun, Hcmd, Hfollow. cbn [negb].
      run_trace. cbn [fst app]. rewrite Hsize. fold max_size.
      replace (check_file_size 0 max_size) with true
        by (symmetry; unfold check_file_size; apply andb_true_iff;
            split; [done | by apply Z.leb_le]).
      cbn [negb Z.ltb Z.compare fst app].
      destruct (RemoteFileReader.follow script) as [fevs fr] eqn:Hf.
      destruct (follow_never_raises script) as (fevs' & st & Hf').
      rewrite Hf in Hf'. injection Hf' as <- ->.
      reflexivity.
Qed.

Lemma tail_file_size_gate_witness :
  RemoteFileReader.tail_file (server [line "524288000"] [] [])
    var_log_profile (lit "/var/log/big.log")
  = ([CheckPath (lit "/var/log/big.log") true;
      GetConnection;
      ExecCommand (lit "stat -c %s /var/log/big.log 2>/dev/null || echo 0");
      Yield (lit "[ERROR] File too large: 524288000 bytes (max: 104857600)")],
     Ok Ended).
Proof.
  pose proof (tail_file_size_gate (server [line "524288000"] [] [])
                var_log_profile (lit "/var/log/big.log")
                eq_refl eq_refl) as H.
  change (RemoteFileReader.run (server [line "524288000"] [] [])
            (RemoteFileReader.size_command (lit "/var/log/big.log")))
    with (RemoteFileReader.Channels [line "524288000"] []) in H.
  cbv beta iota zeta in H. destruct H as (_ & _ & _ & H).
  change (RemoteFileReader.parse_size [line "524288000"])
    with (@Ok Z 524288000%Z) in H.
  cbv beta iota in H. destruct H as [H _].
  exact (H eq_refl).
Defined.

(** C5, as stated, fails for a query that fails on the engine's side.  A
    command that cannot be started, and an answer that is no number (stat
    found one of two names, printed its size and failed, so that the 0 of
    [|| echo 0] follows on a second line), both end the stream with an
    [ERROR] record: no size 0 is assumed, and no tail command follows. *)
Lemma tail_file_size_query_no_fallback :
  RemoteFileReader.tail_file dead_channel var_log_profile
    (lit "/var/log/app.log")
  = ([CheckPath (lit "/var/log/app.log") true;
      GetConnection;
      ExecCommand (lit "stat -c %s /var/log/app.log 2>/dev/null || echo 0");
      Yield (lit "[ERROR] Failed to read remote file: SSH session not active")],
     Ok Ended)
  /\ RemoteFileReader.tail_file (server [line "123"; line "0"] [] [])
       var_log_profile (lit "/var/log/a.log /var/log/b.log")
     = ([CheckPath (lit "/var/log/a.log /var/log/b.log") true;
         GetConnection;
         ExecCommand
           (lit "stat -c %s /var/log/a.log /var/log/b.log 2>/dev/null || echo 0");
         Yield (lit "[ERROR] Failed to read remote file: invalid literal for int() with base 10: '123\n0'")],
        Ok Ended).
Proof. split; vm_compute; reflexivity. Qed.

Section FollowPhase.

Import RemoteFileReader.

Lemma commands_app (a b : list event) :
  commands (a ++ b) = commands a ++ commands b.
Proof. apply omap_app. Qed.

Lemma for_lines_no_command (h : list outcome) :
  commands (for_lines h emit_line).1 = [].
Proof.
  induction h as [|[l | e] h IH]; cbn [for_lines]; [done| |done].
  destruct (truthy l); [|done].
  rewrite emit_line_run. run_trace.
  destruct (for_lines h emit_line) as [evs [[]|e]]; cbn [fst] in *;
    rewrite commands_app, IH, app_nil_r;
    unfold line_events; by destruct (truthy (strip l)).
Qed.

Lemma follow_not_size (path : str) :
  follow_command path <> size_command path.
Proof. discriminate. Qed.

Lemma follow_not_history (n : Z) (path : str) :
  follow_command path <> history_command n path.
Proof. discriminate. Qed.

End FollowPhase.

Section FollowPhaseEntry.

Import RemoteFileReader.

(** A stream whose trace shows the follow command, answered by a
    channel, has reached the follow loop, and its trace ends with the
    events of that loop. *)
Lemma tail_file_follow_phase (w : world) (cfg : server_config)
    (path : str) (script err : list outcome) (evs : list event)
    (r : result status) :
  run w (follow_command path) = Channels script err ->
  tail_file w cfg path = (evs, r) ->
  follow_command path ∈ commands evs ->
  exists before,
    evs = before ++ ExecCommand (follow_command path) :: (follow script).1
    /\ r = (follow script).2.
Proof.
  intros Hrun Htail Hin. revert Htail.
  unfold tail_file, exec_command, check_command.
  destruct (validate_path _ _ _); cbn [negb].
  2:{ run_trace. intros [= <- <-]. by apply elem_of_nil in Hin. }
  destruct (connects w); cbn [negb].
  2:{ run_trace. intros [= <- <-]. by apply elem_of_nil in Hin. }
  destruct (run w (size_command path)) as [e | out err0] eqn:Hsize.
  { run_trace. intros [= <- <-]. cbn in Hin.
    apply list_elem_of_singleton in Hin. by apply follow_not_size in Hin. }
  run_trace. cbn [fst app].
  destruct (parse_size out) as [file_size | e].
  2:{ intros [= <- <-]. cbn in Hin.
    apply list_elem_of_singleton in Hin. by apply follow_not_size in Hin. }
  destruct (check_file_size _ _); cbn [negb].
  2:{ intros [= <- <-]. cbn in Hin.
    apply list_elem_of_singleton in Hin. by apply follow_not_size in Hin. }
  set (history :=
         if (0 <? file_size)%Z
         then _ else _).
  assert (Hh : exists hevs hr,
             history = (hevs, hr)
             /\ follow_command path ∉ commands hevs).
  { subst history. destruct (0 <? file_size)%Z.
    - destruct (run w (history_command _ _)) as [e | h herr].
      + eexists _, _. split; [done|]. cbn.
        intros H%list_elem_of_singleton. by apply follow_not_history in H.
      + cbn [fst app].
        pose proof (for_lines_no_command h) as Hno.
        destruct (for_lines h emit_line) as [hevs hr].
        eexists _, _. split; [done|]. cbn in Hno |- *. rewrite Hno.
        intros H%list_elem_of_singleton. by apply follow_not_history in H.
    - eexists _, _. split; [done|]. apply not_elem_of_nil. }
  clearbody history. destruct Hh as (hevs & hr & -> & Hno).
  assert (Hpre : forall tl,
             follow_command path
               ∈ commands (CheckPath path true :: GetConnection
                           :: ExecCommand (size_command path) :: hevs ++ tl) ->
             follow_command path ∈ commands tl).
  { intros tl H. cbn in H. rewrite commands_app in H.
    apply elem_of_cons in H as [H | H]; [by apply follow_not_size in H|].
    apply elem_of_app in H as [H | H]; done. }
  destruct hr as [[] | e].
  2:{ intros [= <- <-]. apply (Hpre [_]) in Hin. by apply elem_of_nil in Hin. }
  destruct (validate_command (follow_command path)) as [[|]|].
  - rewrite Hrun. cbn [negb fst app].
    destruct (follow script) as [fevs fr] eqn:Hf.
    destruct (follow_never_raises script) as (fevs' & st & Hf').
    rewrite Hf in Hf'. injection Hf' as <- ->.
    intros [= <- <-].
    exists (CheckPath path true :: GetConnection
            :: ExecCommand (size_command path)
            :: hevs ++ [CheckCommand (follow_command path) true]).
    split; [|done]. cbn [app fst]. do 3 f_equal.
    by rewrite <- app_assoc.
  - cbn [negb app]. intros [= <- <-]. apply (Hpre [_; _]) in Hin.
    by apply elem_of_nil in Hin.
  - intros [= <- <-]. rewrite app_nil_r in Hin.
    apply (Hpre [_]) in Hin. by apply elem_of_nil in Hin.
Qed.

End FollowPhaseEntry.

(** C2 (amended).  In a remote tail that has entered the follow phase, the
    first exception raised by a blocking line read ends the stream: the
    records of the lines read before it are all there is, nothing is
    yielded for the failure (it is only printed to the server log), and no
    connection or command follows, so no reconnect is attempted. *)
Theorem tail_file_read_error (w : RemoteFileReader.world)
    (cfg : server_config) (file_path : str)
    (pre post err : list RemoteFileReader.outcome) (e : exn)
    (evs : list event) (r : result status) :
  RemoteFileReader.run w (RemoteFileReader.follow_command file_path)
  = RemoteFileReader.Channels (pre ++ RemoteFileReader.Boom e :: post) err ->
  forallb is_got pre = true ->
  RemoteFileReader.tail_file w cfg file_path = (evs, r) ->
  RemoteFileReader.follow_command file_path ∈ commands evs ->
  exists before lines,
    evs = before
          ++ ExecCommand (RemoteFileReader.follow_command file_path)
          :: lines
          ++ [Print (lit "[SSH] Error reading line: " ++ str_exn e)]
    /\ RemoteFileReader.follow pre = (lines, Ok Following)
    /\ forallb is_quiet lines = true
    /\ r = Ok Ended.
Proof.
  intros Hrun Hpre Htail Hin.
  destruct (tail_file_follow_phase _ _ _ _ _ _ _ Hrun Htail Hin)
    as (before & -> & ->).
  destruct (follow_read_error pre post e Hpre) as (lines & H1 & H2).
  exists before, lines. rewrite H2. repeat split; [done|].
  pose proof (follow_quiet pre) as Hq. by rewrite H1 in Hq.
Qed.

Lemma tail_file_read_error_witness :
  let w := server [line "0"] []
             [line "started";
              RemoteFileReader.Boom (OtherError (lit "Socket is closed"))] in
  let run := RemoteFileReader.tail_file w var_log_profile
               (lit "/var/log/app.log") in
  exists before lines,
    run.1 = before
            ++ ExecCommand (lit "tail -f /var/log/app.log")
            :: lines
            ++ [Print (lit "[SSH] Error reading line: Socket is closed")]
    /\ RemoteFileReader.follow [line "started"] = (lines, Ok Following)
    /\ forallb is_quiet lines = true
    /\ run.2 = Ok Ended.
Proof.
  intros w run.
  apply (tail_file_read_error w var_log_profile (lit "/var/log/app.log")
           [line "started"] [] []
           (OtherError (lit "Socket is closed")) run.1 run.2
           eq_refl eq_refl eq_refl).
  apply (bool_decide_eq_true_1
           (lit "tail -f /var/log/app.log" ∈ commands run.1)).
  reflexivity.
Defined.

(** C2, as stated, fails: a stream in its follow phase whose first read
    raises ends without any record at all; the error only reaches the
    server log. *)
Lemma tail_file_read_error_no_record :
  let w := server [line "0"] []
             [RemoteFileReader.Boom (OtherError (lit "Socket is closed"))] in
  let run := RemoteFileReader.tail_file w var_log_profile
               (lit "/var/log/app.log") in
  run = ([CheckPath (lit "/var/log/app.log") true;
          GetConnection;
          ExecCommand
            (lit "stat -c %s /var/log/app.log 2>/dev/null || echo 0");
          CheckCommand (lit "tail -f /var/log/app.log") true;
          ExecCommand (lit "tail -f /var/log/app.log");
          Print (lit "[SSH] Error reading line: Socket is closed")],
         Ok Ended)
  /\ yields run.1 = [].
Proof. split; reflexivity. Qed.

(** C1: the code at a plain request.  The size query and the backlog read
    go to the remote shell with no command check before them, and so does
    the truncation of [clear_file]; the validator, asked, refuses the size
    query (stat is not allow-listed, and the text holds > and |) and the
    truncation (truncate is not allow-listed). *)
Theorem remote_commands_without_check :
  let w := server [line "12"] [line "hello world"] [] in
  let path := lit "/var/log/app.log" in
  RemoteFileReader.tail_file w var_log_profile path
  = ([CheckPath path true;
      GetConnection;
      ExecCommand (lit "stat -c %s /var/log/app.log 2>/dev/null || echo 0");
      ExecCommand (lit "tail -c 12 /var/log/app.log");
      Yield (lit "hello world");
      CheckCommand (lit "tail -f /var/log/app.log") true;
      ExecCommand (lit "tail -f /var/log/app.log")],
     Ok Following)
  /\ validate_command
       (lit "stat -c %s /var/log/app.log 2>/dev/null || echo 0")
     = Some false
  /\ RemoteFileReader.clear_file w var_log_profile path
     = ([CheckPath path true;
         GetConnection;
         ExecCommand (lit "truncate -s 0 /var/log/app.log")],
        Ok true)
  /\ validate_command (lit "truncate -s 0 /var/log/app.log") = Some false.
Proof. repeat split; reflexivity. Qed.

(** The path check lets shell metacharacters through, so the unchecked
    size query carries them to the remote shell; only the follow command,
    which is checked, is then refused. *)
Example tail_file_runs_chained_text :
  let w := server [line "0"] [] [] in
  let path := lit "/var/log/app.log; id" in
  RemoteFileReader.tail_file w var_log_profile path
  = ([CheckPath path true;
      GetConnection;
      ExecCommand
        (lit "stat -c %s /var/log/app.log; id 2>/dev/null || echo 0");
      CheckCommand (lit "tail -f /var/log/app.log; id") false;
      Yield (lit "[SECURITY] Command rejected: tail -f /var/log/app.log; id")],
     Ok Ended).
Proof. reflexivity. Qed.

(* ===================================================================== *)
(** ** The local tail session *)
(* ===================================================================== *)

Section LocalTail.

Import LogManager.

Lemma for_each_emit_line (ls : list str) :
  Trace.for_each ls emit_line = (ls ≫= line_events, Ok tt).
Proof.
  induction ls as [|l ls IH]; [done|].
  cbn [Trace.for_each]. rewrite IH, emit_line_run. reflexivity.
Qed.

Lemma tell_from_start (content : bytes) :
  tell content 0 = Z.of_nat (length content).
Proof. unfold tell. lia. Qed.

(** A timeout wake-up that finds the path in place does nothing: the size
    is not asked for, the cursor stays. *)
Lemma follow_cycle_timeout (decode : bytes -> str) (pos : Z) (c : cycle) :
  woke c = TimedOut true ->
  follow_cycle decode pos c = ([], Ok (Continue pos)).
Proof. intros H. unfold follow_cycle. by rewrite H. Qed.

End LocalTail.

(** C7.  In the following phase of a local tail, a change notification
    that finds the file smaller than the cursor yields the truncation
    notice, reads from byte 0 (the records that follow are those of the
    whole new content, and the cursor ends at its last byte; or, when the
    file cannot be opened just then, the cursor stays at 0), and the loop
    goes on with the next wake-up: the notice does not end the stream.  A
    timeout wake-up that finds the path in place does not look at the
    size: it yields nothing and the loop goes on from the same cursor. *)
Theorem follow_loop_truncation (decode : bytes -> str)
    (current_position : Z)
    (c : LogManager.cycle) (rest : list LogManager.cycle) :
  (LogManager.woke c = LogManager.Modified ->
   forall new_size,
     LogManager.getsize c = Ok new_size ->
     (new_size < current_position)%Z ->
     (forall e, LogManager.reopen c = LogManager.OpenRaises e ->
                is_oserror e = true) ->
     exists evs cursor,
       LogManager.follow_loop decode current_position (c :: rest)
       = (Yield LogManager.truncated_notice
            :: evs ++ (LogManager.follow_loop decode cursor rest).1,
          (LogManager.follow_loop decode cursor rest).2)
       /\ match LogManager.reopen c with
          | LogManager.Opened content =>
              evs = records_from_start (decode content)
              /\ cursor = Z.of_nat (length content)
          | LogManager.OpenRaises _ => evs = [Sleep] /\ cursor = 0%Z
          end)
  /\ (LogManager.woke c = LogManager.TimedOut true ->
      LogManager.follow_loop decode current_position (c :: rest)
      = LogManager.follow_loop decode current_position rest).
Proof.
  split.
  - intros Hwoke new_size Hsize Hlt Hos.
    cbn [LogManager.follow_loop]. unfold LogManager.follow_cycle.
    rewrite Hwoke, Hsize.
    replace (new_size <? current_position)%Z with true
      by (symmetry; by apply Z.ltb_lt).
    destruct (LogManager.reopen c) as [e | content] eqn:Hopen.
    + rewrite (Hos e eq_refl). exists [Sleep], 0%Z. split; [|done].
      run_trace. by destruct (LogManager.follow_loop decode 0 rest).
    + exists (records_from_start (decode content)),
        (Z.of_nat (length content)).
      split; [|done].
      unfold LogManager.read_from. cbn [Z.to_nat drop].
      rewrite for_each_emit_line, tell_from_start. run_trace.
      destruct (LogManager.follow_loop _ _ rest). cbn [fst snd].
      by rewrite app_nil_r.
  - intros Hwoke. cbn [LogManager.follow_loop].
    rewrite follow_cycle_timeout by done. run_trace.
    by destruct (LogManager.follow_loop decode current_position rest).
Qed.

Lemma follow_loop_truncation_witness :
  LogManager.follow_loop utf_8 120 [rewritten_file; gone_file]
  = ([Yield (lit "[SYSTEM] File truncated. Reloading...");
      Yield (lit "caf" ++ ["233"%char]); Yield (lit "start");
      Yield (lit "[SYSTEM] File disappeared.")],
     Ok Ended)
  /\ LogManager.follow_loop utf_8 120 [polled rewritten_file; gone_file]
     = LogManager.follow_loop utf_8 120 [gone_file].
Proof.
  split.
  - destruct (proj1 (follow_loop_truncation utf_8 120 rewritten_file
                       [gone_file])
                eq_refl 12%Z eq_refl eq_refl)
      as (evs & cursor & Hrun & -> & ->).
    + discriminate.
    + exact Hrun.
  - apply (proj2 (follow_loop_truncation utf_8 120 (polled rewritten_file)
                    [gone_file])).
    reflexivity.
Defined.

(** C7, as stated, fails on a timeout wake-up: with the file rewritten to
    12 bytes behind a cursor of 120, the turn yields no notice and keeps
    the cursor; the truncation is only seen at the next notification. *)
Lemma follow_loop_timeout_keeps_cursor :
  LogManager.getsize (polled rewritten_file) = Ok 12%Z
  /\ LogManager.follow_cycle utf_8 120 (polled rewritten_file)
     = ([], Ok (LogManager.Continue 120))
  /\ LogManager.follow_loop utf_8 120 [polled rewritten_file; rewritten_file]
     = ([Yield (lit "[SYSTEM] File truncated. Reloading...");
         Yield (lit "caf" ++ ["233"%char]); Yield (lit "start")],
        Ok Following).
Proof. repeat split. Qed.

(* ===================================================================== *)
(** ** Further properties of the engine *)
(* ===================================================================== *)

Section RemoteInvariants.
Import RemoteFileReader.

Lemma for_lines_quiet (h : list outcome) :
  forallb is_quiet (for_lines h emit_line).1 = true.
Proof.
  induction h as [|[l | e] h IH]; cbn [for_lines]; [done| |done].
  destruct (truthy l); [|done].
  rewrite emit_line_run. run_trace.
  destruct (for_lines h emit_line) as [evs r]. cbn [fst] in IH.
  destruct r; cbn [fst]; rewrite forallb_app, IH, andb_true_r;
    unfold line_events; by destruct (truthy (strip l)).
Qed.

Lemma quiet_tail_step (path : str) (evs : list event) :
  forallb is_quiet evs = true -> Forall (tail_step path) evs.
Proof.
  intros H. apply Forall_forall. intros ev Hin.
  rewrite forallb_forall in H. specialize (H ev).
  rewrite <- list_elem_of_In in H. specialize (H Hin).
  by destruct ev.
Qed.

Lemma quiet_no_command (evs : list event) :
  forallb is_quiet evs = true -> commands evs = [].
Proof.
  induction evs as [|ev evs IH]; [done|]. cbn [forallb].
  intros [H1 H2]%andb_true_iff. destruct ev; try done; by apply IH.
Qed.

Lemma tail_file_anatomy (w : world) (cfg : server_config) (path : str) :
  exists body st,
    tail_file w cfg path
    = (CheckPath path
         (validate_path (cwd w) path (default [] (allowed_paths cfg)))
       :: (if validate_path (cwd w) path (default [] (allowed_paths cfg))
           then GetConnection :: body else body),
       Ok st)
    /\ Forall (tail_step path) body
    /\ (validate_path (cwd w) path (default [] (allowed_paths cfg))
        && connects w = false -> commands body = []).
Proof.
  unfold tail_file, exec_command, check_command.
  destruct (validate_path _ _ _); cbn [negb andb].
  2:{ run_trace. eexists _, _. split; [reflexivity|]. split; [|done].
      by repeat constructor. }
  destruct (connects w); cbn [negb].
  2:{ run_trace. eexists _, _. split; [reflexivity|]. split; [|done].
      by repeat constructor. }
  run_trace.
  repeat case_match; simplify_eq/=;
    (eexists _, _; split; [reflexivity|]; split; [|done]).
  all: repeat match goal with
    | H : for_lines ?h emit_line = (?l, _) |- _ =>
        let Hq := fresh "Hq" in
        pose proof (for_lines_quiet h) as Hq; rewrite H in Hq;
        cbn [fst] in Hq; apply (quiet_tail_step path) in Hq; clear H
    | H : follow ?h = (?l, _) |- _ =>
        let Hq := fresh "Hq" in
        pose proof (follow_quiet h) as Hq; rewrite H in Hq;
        cbn [fst] in Hq; apply (quiet_tail_step path) in Hq; clear H
    end.
  all: repeat first
    [ apply Forall_nil_2
    | apply Forall_cons; split
    | apply Forall_app; split
    | assumption ].
  all: try exact I.
  all: try (cbn [tail_step]; by left).
  all: try (cbn [tail_step]; right; left; eexists; split; [|reflexivity]; lia).
  all: try (cbn [tail_step]; right; right; by split).
  all: try reflexivity.
  all: cbn [tail_step]; right; right; split; [done|].
  all: match goal with
       | H : negb ?a = false |- _ => destruct a; [done | discriminate]
       end.
Qed.

Lemma commands_exec (evs : list event) (c : str) :
  c ∈ commands evs <-> ExecCommand c ∈ evs.
Proof.
  unfold commands. rewrite list_elem_of_omap. split.
  - intros (ev & Hin & H). destruct ev; try done. by injection H as ->.
  - intros H. by exists (ExecCommand c).
Qed.

(** A command the validator passes holds none of the refused characters. *)
Lemma validate_command_clean (c : str) :
  validate_command c = Some true ->
  forall ch, ch ∈ dangerous_chars -> ch ∉ c.
Proof.
  unfold validate_command. destruct (cmd_name c) as [name|]; [|done].
  cbn [mbind option_bind].
  destruct (negb (mem name ALLOWED_COMMANDS)); [done|].
  destruct (existsb (fun char => contains [char] c) dangerous_chars) eqn:E;
    [done|].
  intros _. by apply no_dangerous_char.
Qed.

Lemma contains_single_app (ch : ascii) (a b : str) :
  contains [ch] (a ++ b) = contains [ch] a || contains [ch] b.
Proof.
  apply eq_true_iff_eq. rewrite orb_true_iff, !contains_single.
  apply elem_of_app.
Qed.

Lemma cmd_name_follow (path : str) :
  cmd_name (follow_command path) = Some (lit "tail").
Proof.
  apply cmd_name_first_token.
  exists [], (lit " -f " ++ path).
  repeat split.
  - constructor.
  - discriminate.
  - repeat constructor.
  - right. by eexists _, _.
Qed.

Lemma cmd_name_find (directory pattern : str) (recursive : bool) :
  cmd_name (find_command directory pattern recursive) = Some (lit "find").
Proof.
  apply cmd_name_first_token.
  exists [],
    (if recursive
     then lit " '" ++ directory ++ lit "' -type f -name '" ++ pattern
          ++ lit "'"
     else lit " '" ++ directory ++ lit "' -maxdepth 1 -type f -name '"
          ++ pattern ++ lit "'").
  repeat split.
  - by destruct recursive.
  - constructor.
  - discriminate.
  - repeat constructor.
  - right. destruct recursive; by eexists _, _.
Qed.

Lemma dangerous_in_literal (ch : ascii) (s : string) :
  ch ∈ dangerous_chars ->
  forallb (fun c => negb (bool_decide (c ∈ dangerous_chars))) (lit s) = true ->
  contains [ch] (lit s) = false.
Proof.
  intros Hch Hs. apply not_true_iff_false. rewrite contains_single.
  intros Hin. rewrite forallb_forall in Hs. specialize (Hs ch).
  rewrite <- list_elem_of_In in Hs. specialize (Hs Hin).
  apply negb_true_iff, bool_decide_eq_false in Hs. done.
Qed.

End RemoteInvariants.

(** X1.  The validator passes the follow command of a path exactly when
    the path holds none of the nine characters of [dangerous_chars]
    (semicolon, bar, ampersand, dollar, backquote, the two angle brackets,
    line feed and carriage return; parentheses are not among them); a
    remote tail of a path that holds one never sends the follow
    command. *)
Theorem follow_command_checked (w : RemoteFileReader.world)
    (cfg : server_config) (path : str) :
  (validate_command (RemoteFileReader.follow_command path) = Some true
   <-> forall ch, ch ∈ dangerous_chars -> ch ∉ path)
  /\ ((exists ch, ch ∈ dangerous_chars /\ ch ∈ path) ->
      RemoteFileReader.follow_command path
        ∉ commands (RemoteFileReader.tail_file w cfg path).1).
Proof.
  assert (Hiff : validate_command (RemoteFileReader.follow_command path)
                 = Some true
                 <-> forall ch, ch ∈ dangerous_chars -> ch ∉ path).
  { unfold validate_command. rewrite cmd_name_follow. cbn [mbind option_bind].
    change (negb (mem (lit "tail") ALLOWED_COMMANDS)) with false. cbn iota.
    rewrite <- no_dangerous_char.
    assert (E : forall ch,
               ch ∈ dangerous_chars ->
               contains [ch] (RemoteFileReader.follow_command path)
               = contains [ch] path).
    { intros ch Hch. unfold RemoteFileReader.follow_command.
      rewrite contains_single_app.
      by rewrite (dangerous_in_literal ch "tail -f " Hch eq_refl). }
    assert (E' : existsb (fun ch => contains [ch]
                            (RemoteFileReader.follow_command path))
                   dangerous_chars
                 = existsb (fun ch => contains [ch] path) dangerous_chars).
    { apply eq_true_iff_eq. rewrite !existsb_exists.
      split; intros (ch & Hin & H); exists ch; (split; [done|]);
        [rewrite <- E | rewrite E]; try done; by apply list_elem_of_In. }
    rewrite E'. by destruct (existsb _ dangerous_chars). }
  split; [exact Hiff|].
  intros (ch & Hch & Hin) Hcmd.
  destruct (tail_file_anatomy w cfg path) as (body & st & E & Hbody & _).
  rewrite E in Hcmd. cbn [fst] in Hcmd. apply commands_exec in Hcmd.
  apply elem_of_cons in Hcmd as [? | Hcmd]; [done|].
  assert (Hb : ExecCommand (RemoteFileReader.follow_command path) ∈ body).
  { destruct (validate_path _ _ _); [|done].
    by apply elem_of_cons in Hcmd as [? | ?]. }
  rewrite Forall_forall in Hbody. specialize (Hbody _ Hb).
  destruct Hbody as [H | [(n & _ & H) | [_ H]]].
  - by apply follow_not_size in H.
  - by apply follow_not_history in H.
  - by apply (proj1 Hiff H ch).
Qed.

(** X2.  A remote tail never raises.  It asks the pool for a connection
    at most once; when the path check fails it asks for none and sends no
    command, and when no connection is had it sends no command. *)
Theorem remote_tail_guarded (w : RemoteFileReader.world)
    (cfg : server_config) (path : str) :
  exists evs st,
    RemoteFileReader.tail_file w cfg path = (evs, Ok st)
    /\ length (filter (fun ev => is_get_connection ev = true) evs) <= 1
    /\ (validate_path (RemoteFileReader.cwd w) path
          (default [] (allowed_paths cfg)) = false ->
        commands evs = [] /\ GetConnection ∉ evs)
    /\ (RemoteFileReader.connects w = false -> commands evs = []).
Proof.
  destruct (tail_file_anatomy w cfg path) as (body & st & E & Hbody & Hconn).
  eexists _, st. split; [exact E|].
  assert (Hnone : filter (fun ev => is_get_connection ev = true) body = []).
  { clear E Hconn. induction Hbody as [|ev body Hev _ IH]; [done|].
    rewrite filter_cons.
    destruct ev; cbn [tail_step] in Hev; try done;
      by rewrite decide_False. }
  assert (Hnot : GetConnection ∉ body).
  { intros Hin. rewrite Forall_forall in Hbody. exact (Hbody _ Hin). }
  clear Hbody.
  destruct (validate_path _ _ _); cbn [andb] in Hconn.
  - split; [|split; [done|]].
    + rewrite !filter_cons. cbn. rewrite Hnone.
      rewrite decide_False, decide_True by done. cbn. lia.
    + intros H. cbn. by apply Hconn.
  - split; [|split].
    + rewrite filter_cons. cbn. rewrite Hnone.
      rewrite decide_False by done. cbn. lia.
    + intros _. split; [cbn; by apply Hconn|].
      by intros [? | ?]%elem_of_cons.
    + intros _. cbn. by apply Hconn.
Qed.

(** X3.  Every command a remote tail sends is the size query, a backlog
    read of between 1 and 10240 bytes, or the follow command, and the
    follow command is only sent once the validator has passed it, so it
    holds none of the refused characters. *)
Theorem remote_tail_commands (w : RemoteFileReader.world)
    (cfg : server_config) (path : str) (c : str) :
  c ∈ commands (RemoteFileReader.tail_file w cfg path).1 ->
  c = RemoteFileReader.size_command path
  \/ (exists n, (1 <= n <= 10240)%Z
                /\ c = RemoteFileReader.history_command n path)
  \/ (c = RemoteFileReader.follow_command path
      /\ validate_command c = Some true
      /\ forall ch, ch ∈ dangerous_chars -> ch ∉ c).
Proof.
  intros Hc.
  destruct (tail_file_anatomy w cfg path) as (body & st & E & Hbody & _).
  rewrite E in Hc. cbn [fst] in Hc. apply commands_exec in Hc.
  apply elem_of_cons in Hc as [? | Hc]; [done|].
  assert (Hb : ExecCommand c ∈ body).
  { destruct (validate_path _ _ _); [|done].
    by apply elem_of_cons in Hc as [? | ?]. }
  rewrite Forall_forall in Hbody. specialize (Hbody _ Hb).
  destruct Hbody as [H | [H | [H1 H2]]]; [by left | right; by left |].
  right. right. repeat split; [done | done |].
  by apply validate_command_clean.
Qed.

Lemma remote_tail_commands_witness :
  lit "tail -c 12 /var/log/app.log"
  = RemoteFileReader.size_command (lit "/var/log/app.log")
  \/ (exists n, (1 <= n <= 10240)%Z
                /\ lit "tail -c 12 /var/log/app.log"
                   = RemoteFileReader.history_command n (lit "/var/log/app.log"))
  \/ (lit "tail -c 12 /var/log/app.log"
      = RemoteFileReader.follow_command (lit "/var/log/app.log")
      /\ validate_command (lit "tail -c 12 /var/log/app.log") = Some true
      /\ forall ch, ch ∈ dangerous_chars -> ch ∉ lit "tail -c 12 /var/log/app.log").
Proof.
  apply (remote_tail_commands
           (server [line "12"] [line "hello world"] []) var_log_profile
           (lit "/var/log/app.log")).
  apply (bool_decide_eq_true_1
           (lit "tail -c 12 /var/log/app.log"
              ∈ commands
                  (RemoteFileReader.tail_file
                     (server [line "12"] [line "hello world"] [])
                     var_log_profile (lit "/var/log/app.log")).1)).
  reflexivity.
Defined.

Section FollowRecords.
Import RemoteFileReader.

Lemma yields_app (a b : list event) : yields (a ++ b) = yields a ++ yields b.
Proof. apply omap_app. Qed.

Lemma yields_line_events (l : str) :
  yields (line_events l)
  = if truthy (strip l) then [strip_ansi_codes (strip l)] else [].
Proof. unfold line_events. by destruct (truthy (strip l)). Qed.

End FollowRecords.

(** X4.  Over reads that do not raise, the follow loop yields the
    non-blank lines in the order read, each stripped and freed of colour
    codes; blank lines and empty reads yield nothing and do not end the
    stream, which is left waiting for the next read. *)
Theorem follow_records (script : list RemoteFileReader.outcome) :
  forallb is_got script = true ->
  RemoteFileReader.follow script
  = ((RemoteFileReader.follow script).1, Ok Following)
  /\ yields (RemoteFileReader.follow script).1
     = omap (fun o =>
               match o with
               | RemoteFileReader.Got l =>
                   if truthy (strip l) then Some (strip_ansi_codes (strip l))
                   else None
               | RemoteFileReader.Boom _ => None
               end) script.
Proof.
  induction script as [|[l | e] script IH]; [done| |done].
  cbn [forallb is_got andb]. intros H. destruct (IH H) as [IH1 IH2].
  cbn [RemoteFileReader.follow]. rewrite emit_line_run, IH1. run_trace.
  destruct (truthy l) eqn:Hl; cbn [fst snd omap list_omap].
  - split; [done|]. rewrite yields_app, yields_line_events, IH2.
    by destruct (truthy (strip l)).
  - split; [done|]. destruct l; [|done]. cbn. exact IH2.
Qed.

Lemma follow_records_witness :
  RemoteFileReader.follow [line "one"; RemoteFileReader.Got []; line "  "; line "[31mtwo"]
  = ((RemoteFileReader.follow
        [line "one"; RemoteFileReader.Got []; line "  "; line "[31mtwo"]).1,
     Ok Following)
  /\ yields (RemoteFileReader.follow
               [line "one"; RemoteFileReader.Got []; line "  "; line "[31mtwo"]).1
     = [lit "one"; lit "two"].
Proof.
  apply (follow_records
           [line "one"; RemoteFileReader.Got []; line "  "; line "[31mtwo"]).
  reflexivity.
Defined.

Section ListFiles.
Import RemoteFileReader.

Lemma split_on_go_no_sep (sep : ascii) (cur s : str) :
  sep ∉ cur -> Forall (fun part => sep ∉ part) (split_on_go sep cur s).
Proof.
  revert cur. induction s as [|c s IH]; intros cur Hcur; cbn [split_on_go].
  - by repeat constructor.
  - destruct (Ascii.eqb_spec c sep) as [-> | Hne].
    + constructor; [done|]. apply IH. apply not_elem_of_nil.
    + apply IH. rewrite elem_of_app, list_elem_of_singleton.
      intros [? | ?]; [done | by apply Hne].
Qed.

Lemma basename_no_sep (p : str) : PosixPath.sep ∉ basename p.
Proof.
  unfold basename, split_on.
  pose proof (split_on_go_no_sep PosixPath.sep [] p (not_elem_of_nil _)) as H.
  destruct (last _) as [b|] eqn:E; cbn [default].
  - rewrite Forall_forall in H. apply H. by eapply last_Some_elem_of.
  - apply not_elem_of_nil.
Qed.

Lemma truthy_nonempty (s : str) : truthy s = true -> s <> [].
Proof. by destruct s. Qed.

Lemma collect_spec (ch : list outcome) (files : list descriptor)
    (line_count : nat) (out : list descriptor) :
  collect ch files line_count = Ok out ->
  exists extra,
    out = files ++ extra
    /\ (length extra <= max_files - line_count)%nat
    /\ Forall (descriptor_of ch) extra.
Proof.
  revert files line_count.
  induction ch as [|[l | e] ch IH]; intros files n; cbn [collect].
  - intros [= <-]. exists []. rewrite app_nil_r. repeat split; [cbn [length]; lia | done].
  - assert (Hmono : forall ds, Forall (descriptor_of ch) ds ->
                               Forall (descriptor_of (Got l :: ch)) ds).
    { intros ds Hds. eapply Forall_impl; [exact Hds|].
      intros d (H1 & H2 & H3 & l' & H4 & H5).
      repeat split; try done. exists l'. split; [by right | done]. }
    destruct (truthy l).
    2:{ intros [= <-]. exists []. rewrite app_nil_r. repeat split; [cbn [length]; lia | done]. }
    destruct (Nat.leb_spec max_files n).
    { intros [= <-]. exists []. rewrite app_nil_r. repeat split; [cbn [length]; lia | done]. }
    destruct (truthy (strip l)) eqn:Hl.
    + intros Hc. apply IH in Hc as (extra & -> & Hlen & Hall).
      exists ({| d_path := strip l; d_name := basename (strip l) |} :: extra).
      split; [by rewrite <- app_assoc|]. split; [cbn [length]; lia|].
      constructor; [|by apply Hmono].
      repeat split; cbn [d_path d_name].
      * by apply truthy_nonempty.
      * apply basename_no_sep.
      * exists l. split; [by left | done].
    + intros Hc. apply IH in Hc as (extra & -> & Hlen & Hall).
      exists extra. repeat split; [lia | by apply Hmono].
  - done.
Qed.

End ListFiles.

(** X5.  [list_files] never raises and returns at most 1000 descriptors.
    Each descriptor has a non-empty path, the stripped text of a line of
    the listing, and as name the base name of that path, which holds no
    separator.  When no command was sent the result is empty. *)
Theorem list_files_result (w : RemoteFileReader.world) (cfg : server_config)
    (directory pattern : str) (recursive : bool) :
  exists evs files,
    RemoteFileReader.list_files w cfg directory pattern recursive
    = (evs, Ok files)
    /\ (length files <= 1000)%nat
    /\ (forall out err,
          RemoteFileReader.run w
            (RemoteFileReader.find_command directory pattern recursive)
          = RemoteFileReader.Channels out err ->
          Forall (descriptor_of out) files)
    /\ (commands evs = [] -> files = []).
Proof.
  unfold RemoteFileReader.list_files, RemoteFileReader.exec_command,
    RemoteFileReader.check_command.
  run_trace.
  repeat case_match; simplify_eq/=;
    (eexists _, _; split; [reflexivity|]);
    try (split; [cbn [length]; lia|];
         split; [by intros; constructor | done]).
  match goal with
  | H : RemoteFileReader.collect _ _ _ = Ok _ |- _ =>
      apply collect_spec in H as (extra & -> & Hlen & Hall)
  end.
  cbn [app]. split; [unfold RemoteFileReader.max_files in Hlen; lia|].
  split; [|done]. intros out err [= -> ->]. exact Hall.
Qed.

Section BuiltCommands.
Import RemoteFileReader.

Lemma existsb_dangerous_ext (f g : ascii -> bool) :
  (forall ch, ch ∈ dangerous_chars -> f ch = g ch) ->
  existsb f dangerous_chars = existsb g dangerous_chars.
Proof.
  intros H. apply eq_true_iff_eq. rewrite !existsb_exists.
  split; intros (ch & Hin & Hf); exists ch; (split; [done|]);
    [rewrite <- H | rewrite H]; try done; by apply list_elem_of_In.
Qed.

Lemma find_command_chars (ch : ascii) (directory pattern : str)
    (recursive : bool) :
  ch ∈ dangerous_chars ->
  contains [ch] (find_command directory pattern recursive)
  = contains [ch] directory || contains [ch] pattern.
Proof.
  intros Hch. unfold find_command.
  destruct recursive; rewrite !contains_single_app.
  - rewrite (dangerous_in_literal ch "find '" Hch eq_refl).
    rewrite (dangerous_in_literal ch "' -type f -name '" Hch eq_refl).
    rewrite (dangerous_in_literal ch "'" Hch eq_refl).
    by rewrite orb_false_r.
  - rewrite (dangerous_in_literal ch "find '" Hch eq_refl).
    rewrite (dangerous_in_literal ch "' -maxdepth 1 -type f -name '"
               Hch eq_refl).
    rewrite (dangerous_in_literal ch "'" Hch eq_refl).
    by rewrite orb_false_r.
Qed.

End BuiltCommands.

(** X6.  The validator passes the find command that [list_files] builds
    exactly when neither the directory nor the pattern holds a refused
    character. *)
Theorem find_command_checked (directory pattern : str) (recursive : bool) :
  validate_command
    (RemoteFileReader.find_command directory pattern recursive) = Some true
  <-> forall ch, ch ∈ dangerous_chars ->
                 (ch ∉ directory) /\ (ch ∉ pattern).
Proof.
  unfold validate_command. rewrite cmd_name_find. cbn [mbind option_bind].
  change (negb (mem (lit "find") ALLOWED_COMMANDS)) with false. cbn iota.
  rewrite (existsb_dangerous_ext _
             (fun ch => contains [ch] directory || contains [ch] pattern))
    by (intros ch Hch; by apply find_command_chars).
  destruct (existsb _ dangerous_chars) eqn:E.
  - split; [done|]. intros H. apply existsb_exists in E as (ch & Hin & Hc).
    apply list_elem_of_In in Hin. destruct (H ch Hin) as [Hd Hp].
    apply orb_true_iff in Hc as [Hc | Hc]; apply contains_single in Hc; done.
  - split; [|done]. intros _ ch Hch.
    assert (Hc : contains [ch] directory || contains [ch] pattern = false).
    { apply not_true_iff_false. intros Hc.
      apply not_true_iff_false in E. apply E. apply existsb_exists.
      exists ch. split; [by apply list_elem_of_In | done]. }
    apply orb_false_iff in Hc as [Hd Hp].
    split; intros Hin%contains_single; congruence.
Qed.

(** X7.  [list_files] sends at most one command, the find command, and
    only after the path check passed, a connection was had and the
    validator passed that very command; the command sent holds none of the
    refused characters. *)
Theorem list_files_guarded (w : RemoteFileReader.world) (cfg : server_config)
    (directory pattern : str) (recursive : bool) :
  let cmd := RemoteFileReader.find_command directory pattern recursive in
  let evs :=
    (RemoteFileReader.list_files w cfg directory pattern recursive).1 in
  commands evs = []
  \/ (commands evs = [cmd]
      /\ validate_path (RemoteFileReader.cwd w) directory
           (default [] (allowed_paths cfg)) = true
      /\ RemoteFileReader.connects w = true
      /\ CheckCommand cmd true ∈ evs
      /\ forall ch, ch ∈ dangerous_chars -> ch ∉ cmd).
Proof.
  intros cmd evs. subst evs.
  unfold RemoteFileReader.list_files, RemoteFileReader.exec_command,
    RemoteFileReader.check_command.
  fold cmd. run_trace.
  destruct (validate_path _ _ _) eqn:Hpath; cbn [negb]; [|by left].
  destruct (RemoteFileReader.connects w) eqn:Hconn; cbn [negb]; [|by left].
  destruct (validate_command cmd) as [[|]|] eqn:Hcmd; cbn [negb];
    [|by left|by left].
  right.
  assert (Hclean : forall ch, ch ∈ dangerous_chars -> ch ∉ cmd)
    by by apply validate_command_clean.
  destruct (RemoteFileReader.run w cmd) as [e | out err]; cbn [fst app].
  - repeat split; try done. present.
  - destruct (RemoteFileReader.collect out [] 0); cbn [fst];
      repeat split; try done; present.
Qed.

(** X8.  [clear_file] never raises.  It returns true exactly when the path
    check passes, a connection is had, and the truncation ran and wrote
    nothing but white space to its error stream.  It sends at most the
    truncation, only after the path check and with a connection, and it
    never asks the validator about a command. *)
Theorem clear_file_outcome (w : RemoteFileReader.world)
    (cfg : server_config) (path : str) :
  exists evs ok,
    RemoteFileReader.clear_file w cfg path = (evs, Ok ok)
    /\ (ok = true
        <-> validate_path (RemoteFileReader.cwd w) path
              (default [] (allowed_paths cfg)) = true
            /\ RemoteFileReader.connects w = true
            /\ exists out err text,
                 RemoteFileReader.run w (RemoteFileReader.clear_command path)
                 = RemoteFileReader.Channels out err
                 /\ RemoteFileReader.read err = Ok text
                 /\ strip text = [])
    /\ (commands evs = []
        \/ commands evs = [RemoteFileReader.clear_command path]
           /\ validate_path (RemoteFileReader.cwd w) path
                (default [] (allowed_paths cfg)) = true
           /\ RemoteFileReader.connects w = true)
    /\ (forall c verdict, CheckCommand c verdict ∉ evs).
Proof.
  unfold RemoteFileReader.clear_file, RemoteFileReader.exec_command.
  run_trace.
  destruct (validate_path _ _ _) eqn:Hpath; cbn [negb].
  2:{ eexists _, _. split; [reflexivity|]. split; [|split; [by left|]].
      - split; [done | by intros [? _]].
      - intros c v Hin. absent Hin. }
  destruct (RemoteFileReader.connects w) eqn:Hconn; cbn [negb].
  2:{ eexists _, _. split; [reflexivity|]. split; [|split; [by left|]].
      - split; [done | by intros (_ & ? & _)].
      - intros c v Hin. absent Hin. }
  destruct (RemoteFileReader.run w _) as [e | out err] eqn:Hrun;
    cbn [fst snd app].
  { eexists _, _. split; [reflexivity|]. split; [|split; [by right|]].
    - split; [done | by intros (_ & _ & ? & ? & ? & ? & _)].
    - intros c v Hin. absent Hin. }
  destruct (RemoteFileReader.read err) as [text | e] eqn:Hread.
  2:{ eexists _, _. split; [reflexivity|]. split; [|split; [by right|]].
      - split; [done|]. intros (_ & _ & ? & ? & ? & [= <- <-] & ? & _).
        congruence.
      - intros c v Hin. absent Hin. }
  destruct (strip text) as [|c0 rest] eqn:Hstrip; cbn [truthy].
  - eexists _, _. split; [reflexivity|]. split; [|split; [by right|]].
    + split; [|done]. intros _. repeat split; try done.
      by exists out, err, text.
    + intros c v Hin. absent Hin.
  - eexists _, _. split; [reflexivity|]. split; [|split; [by right|]].
    + split; [done|]. intros (_ & _ & ? & ? & ? & [= <- <-] & ? & ?).
      congruence.
    + intros c v Hin. absent Hin.
Qed.

Section LocalFollow.
Import LogManager.

Lemma line_events_quiet (l : str) : forallb is_quiet (line_events l) = true.
Proof. unfold line_events. by destruct (truthy (strip l)). Qed.

Lemma bind_line_events_quiet (ls : list str) :
  forallb is_quiet (ls ≫= line_events) = true.
Proof.
  induction ls as [|l ls IH]; [done|].
  cbn [mbind list_bind]. change (forallb is_quiet (line_events l ++ (ls ≫= line_events)) = true).
  by rewrite forallb_app, line_events_quiet, IH.
Qed.

Lemma follow_cycle_quiet (decode : bytes -> str) (pos : Z) (c : cycle) :
  forallb is_quiet (follow_cycle decode pos c).1 = true.
Proof.
  unfold follow_cycle.
  destruct (woke c) as [|[|]]; [|done|done].
  destruct (getsize c) as [n | e]; [|by destruct (is_oserror e)].
  destruct (reopen c) as [e | content].
  - destruct (n <? pos)%Z, (is_oserror e); done.
  - rewrite for_each_emit_line. run_trace.
    destruct (n <? pos)%Z; cbn [fst app forallb is_quiet andb];
      rewrite ?app_nil_r; apply bind_line_events_quiet.
Qed.

Lemma follow_loop_quiet (decode : bytes -> str) (pos : Z)
    (cs : list cycle) :
  forallb is_quiet (follow_loop decode pos cs).1 = true.
Proof.
  revert pos. induction cs as [|c cs IH]; intros pos; [done|].
  cbn [follow_loop]. pose proof (follow_cycle_quiet decode pos c) as Hq.
  destruct (follow_cycle decode pos c) as [evs [[pos' |] | e]];
    cbn [fst] in Hq; run_trace; rewrite ?app_nil_r; try done.
  specialize (IH pos'). destruct (follow_loop decode pos' cs) as [evs' r].
  cbn [fst] in *. by rewrite forallb_app, Hq, IH.
Qed.

(** With only benign wake-ups the loop neither ends nor raises. *)
Lemma follow_loop_benign (decode : bytes -> str) (pos : Z)
    (cs : list cycle) :
  forallb benign cs = true ->
  (follow_loop decode pos cs).2 = Ok Following.
Proof.
  revert pos. induction cs as [|c cs IH]; intros pos; [done|].
  cbn [forallb]. intros [Hc Hcs]%andb_true_iff.
  cbn [follow_loop]. unfold follow_cycle. unfold benign in Hc.
  destruct (woke c) as [|still].
  - destruct (getsize c) as [n | e].
    + destruct (reopen c) as [e | content].
      * rewrite Hc. run_trace.
        specialize (IH (if (n <? pos)%Z then 0%Z else pos) Hcs).
        destruct (n <? pos)%Z;
          destruct (follow_loop _ _ cs) as [evs r]; exact IH.
      * rewrite for_each_emit_line. run_trace.
        destruct (n <? pos)%Z.
        -- specialize (IH (tell content 0) Hcs).
           destruct (follow_loop _ _ cs) as [evs r]. exact IH.
        -- specialize (IH (tell content pos) Hcs).
           destruct (follow_loop _ _ cs) as [evs r]. exact IH.
    + rewrite Hc. run_trace. specialize (IH pos Hcs).
      destruct (follow_loop _ _ cs) as [evs r]. exact IH.
  - rewrite Hc. cbn [negb]. run_trace. specialize (IH pos Hcs).
    destruct (follow_loop _ _ cs) as [evs r]. exact IH.
Qed.

End LocalFollow.

(** X9.  When the local file has grown behind the cursor, a change
    notification yields the records of the text of exactly the appended
    bytes, none of the old ones again, and moves the cursor to the last
    byte of the file.  The cursor counts bytes, whatever the encoding. *)
Theorem follow_cycle_appended (decode : bytes -> str) (old new : bytes)
    (new_size : Z) (c : LogManager.cycle) :
  LogManager.woke c = LogManager.Modified ->
  LogManager.getsize c = Ok new_size ->
  (Z.of_nat (length old) <= new_size)%Z ->
  LogManager.reopen c = LogManager.Opened (old ++ new) ->
  LogManager.follow_cycle decode (Z.of_nat (length old)) c
  = (records_from_start (decode new),
     Ok (LogManager.Continue (Z.of_nat (length (old ++ new))))).
Proof.
  intros Hwoke Hsize Hle Hopen. unfold LogManager.follow_cycle.
  rewrite Hwoke, Hsize, Hopen.
  replace (new_size <? Z.of_nat (length old))%Z with false
    by (symmetry; apply Z.ltb_ge; lia).
  rewrite for_each_emit_line. run_trace. cbn [app].
  unfold LogManager.read_from, LogManager.tell, records_from_start.
  rewrite Nat2Z.id, drop_app_length, app_nil_r, length_app.
  do 3 f_equal. lia.
Qed.

Lemma follow_cycle_appended_witness :
  LogManager.follow_cycle utf_8 3 (grown_file 5)
  = ([Yield (lit "x")], Ok (LogManager.Continue 5)).
Proof.
  apply (follow_cycle_appended utf_8
           [Byte.xc3; Byte.xa9; Byte.x0a] (ascii_bytes (lit "x" ++ [LF]))
           5 (grown_file 5) eq_refl eq_refl);
    [discriminate | reflexivity].
Defined.

(** X10.  A turn of the local follow loop that goes on never moves the
    cursor back, except when it found the file smaller than the cursor:
    then the first thing it yields is the truncation notice. *)
Theorem follow_cycle_cursor (decode : bytes -> str) (pos pos' : Z)
    (c : LogManager.cycle) (evs : list event) :
  LogManager.follow_cycle decode pos c
  = (evs, Ok (LogManager.Continue pos')) ->
  (pos <= pos')%Z
  \/ ((0 <= pos')%Z
      /\ (exists new_size,
            LogManager.getsize c = Ok new_size /\ (new_size < pos)%Z)
      /\ head evs = Some (Yield LogManager.truncated_notice)).
Proof.
  unfold LogManager.follow_cycle.
  destruct (LogManager.woke c) as [|[|]]; [| |done].
  2: by (run_trace; intros [= <- <-]; left).
  destruct (LogManager.getsize c) as [n | e].
  2: by (destruct (is_oserror e); [|done]; run_trace; intros [= <- <-]; left).
  destruct (Z.ltb_spec n pos) as [Hlt | Hge].
  - destruct (LogManager.reopen c) as [e | content].
    + destruct (is_oserror e); [|done]. run_trace. intros [= <- <-].
      right. split; [done|]. split; [by exists n | done].
    + rewrite for_each_emit_line. run_trace. intros [= <- <-].
      right. split; [unfold LogManager.tell; lia|]. split; [by exists n | done].
  - destruct (LogManager.reopen c) as [e | content].
    + destruct (is_oserror e); [|done]. run_trace. intros [= <- <-]. by left.
    + rewrite for_each_emit_line. run_trace. intros [= <- <-].
      left. unfold LogManager.tell. lia.
Qed.

Lemma follow_cycle_cursor_witness :
  (3 <= 5)%Z
  \/ ((0 <= 5)%Z
      /\ (exists new_size,
            LogManager.getsize (grown_file 5) = Ok new_size
            /\ (new_size < 3)%Z)
      /\ head [Yield (lit "x")] = Some (Yield LogManager.truncated_notice)).
Proof.
  apply (follow_cycle_cursor utf_8 3 5 (grown_file 5) [Yield (lit "x")]).
  reflexivity.
Defined.

Section LocalTailWhole.
Import LogManager.

Lemma count_events_app (f : event -> bool) (a b : list event) :
  count_events f (a ++ b) = (count_events f a + count_events f b)%nat.
Proof. unfold count_events. by rewrite List.filter_app, length_app. Qed.

Lemma count_quiet_start (evs : list event) :
  forallb is_quiet evs = true -> count_events is_watch_start evs = 0%nat.
Proof.
  induction evs as [|ev evs IH]; [done|]. cbn [forallb].
  intros [H1 H2]%andb_true_iff. unfold count_events in *.
  destruct ev; try done; cbn; by apply IH.
Qed.

Lemma count_quiet_stop (evs : list event) :
  forallb is_quiet evs = true -> count_events is_watch_stop evs = 0%nat.
Proof.
  induction evs as [|ev evs IH]; [done|]. cbn [forallb].
  intros [H1 H2]%andb_true_iff. unfold count_events in *.
  destruct ev; try done; cbn; by apply IH.
Qed.

Lemma backlog_quiet (w : world) : forallb is_quiet (backlog w).1 = true.
Proof.
  unfold backlog. destruct (first_open w) as [e | content]; [done|].
  destruct (first_size w) as [n | e]; run_trace; [|done].
  destruct (0 <? n)%Z; [|done].
  rewrite for_each_emit_line. cbn [fst app]. apply bind_line_events_quiet.
Qed.

End LocalTailWhole.

(** X11.  A local tail of an entry without a path raises the [TypeError]
    of [os.path.exists(None)] before it yields anything; with a path it
    never raises.  It starts the file watch at most once; once the stream
    has ended the watch has been stopped as often as it was started (not at
    all when it could not be started), and while the stream is still
    following it has not been stopped. *)
Theorem local_tail_watch (w : LogManager.world) :
  (count_events is_watch_start (LogManager.tail_file w).1 <= 1)%nat
  /\ match LogManager.file_path w with
     | None =>
         LogManager.tail_file w = ([], Raise LogManager.no_path_error)
     | Some _ =>
         exists evs st,
           LogManager.tail_file w = (evs, Ok st)
           /\ count_events is_watch_stop evs
              = (if is_following st then 0%nat
                 else count_events is_watch_start evs)
     end.
Proof.
  unfold LogManager.tail_file.
  destruct (LogManager.file_path w) as [path|]; [|split; [cbn; lia | done]].
  destruct (LogManager.path_exists w); cbn [negb].
  2:{ split; [cbn; lia|]. eexists _, _. split; [reflexivity | done]. }
  pose proof (backlog_quiet w) as Hb.
  destruct (LogManager.backlog w) as [bevs [[] | e]]; cbn [fst] in Hb.
  2:{ run_trace. cbn [fst].
      rewrite !count_events_app, (count_quiet_start _ Hb).
      split; [cbn; lia|]. eexists _, _. split; [reflexivity|].
      rewrite !count_events_app, (count_quiet_start _ Hb),
        (count_quiet_stop _ Hb). done. }
  destruct (LogManager.second_size w) as [pos | e].
  2:{ run_trace. cbn [fst].
      rewrite !count_events_app, (count_quiet_start _ Hb).
      split; [cbn; lia|]. eexists _, _. split; [reflexivity|].
      rewrite !count_events_app, (count_quiet_start _ Hb),
        (count_quiet_stop _ Hb). done. }
  destruct (LogManager.observer w) as [[] | e].
  2:{ run_trace. cbn [fst].
      rewrite !count_events_app, (count_quiet_start _ Hb).
      split; [cbn; lia|]. eexists _, _. split; [reflexivity|].
      rewrite !count_events_app, (count_quiet_start _ Hb),
        (count_quiet_stop _ Hb). done. }
  pose proof (follow_loop_quiet (LogManager.decode w) pos
                (LogManager.cycles w)) as Hf.
  run_trace. unfold Trace.finally.
  destruct (LogManager.follow_loop (LogManager.decode w) pos
              (LogManager.cycles w))
    as [fevs [[|] | e]]; cbn [fst] in Hf; cbn [is_following fst];
    (split; [|eexists _, _; split; [reflexivity|]]);
    rewrite ?app_nil_r;
    repeat (rewrite count_events_app
            || rewrite (count_quiet_start _ Hb)
            || rewrite (count_quiet_stop _ Hb)
            || rewrite (count_quiet_start _ Hf)
            || rewrite (count_quiet_stop _ Hf));
    cbn; lia.
Qed.

Section LocalBacklog.
Import LogManager.

Lemma backlog_run (w : world) (content : bytes) :
  first_open w = Opened content ->
  first_size w = Ok (Z.of_nat (length content)) ->
  backlog w = (backlog_window (decode w) content ≫= line_events, Ok tt).
Proof.
  intros Hopen Hsize. unfold backlog, backlog_window.
  rewrite Hopen, Hsize. run_trace. cbn [app].
  change (1024 * 10)%Z with 10240%Z.
  destruct (Z.ltb_spec 0 (Z.of_nat (length content))) as [Hpos | Hzero].
  - replace (Z.of_nat (length content) =? 0)%Z with false
      by (symmetry; apply Z.eqb_neq; lia).
    rewrite for_each_emit_line. unfold read_from.
    destruct (Z.leb_spec (Z.of_nat (length content)) 10240) as [Hle | Hgt].
    + rewrite Z.min_l by done. rewrite Z.sub_diag, Z.ltb_irrefl.
      reflexivity.
    + rewrite Z.min_r by lia.
      replace (10240 <? Z.of_nat (length content))%Z with true
        by (symmetry; apply Z.ltb_lt; lia).
      reflexivity.
  - by replace (Z.of_nat (length content) =? 0)%Z with true
      by (symmetry; apply Z.eqb_eq; lia).
Qed.

End LocalBacklog.

(** X12.  A local tail of an existing file, of the size its bytes have,
    replays the backlog window: the text of the whole file up to 10240
    bytes, else the text of the last 10240 bytes without its first line.
    When the watch starts, the stream then follows: through timeouts that
    find the file in place, changes that are read without error, and
    [OSError]s of [getsize] and [open], it neither ends nor raises.  When
    the watch cannot be started, the stream ends after the backlog with an
    error record, and nothing is stopped. *)
Theorem local_tail_replay_then_follow (w : LogManager.world)
    (path : str) (content : bytes) (pos : Z) :
  LogManager.file_path w = Some path ->
  LogManager.path_exists w = true ->
  LogManager.first_open w = LogManager.Opened content ->
  LogManager.first_size w = Ok (Z.of_nat (length content)) ->
  LogManager.second_size w = Ok pos ->
  let replay :=
    backlog_window (LogManager.decode w) content ≫= line_events in
  match LogManager.observer w with
  | Ok _ =>
      forallb benign (LogManager.cycles w) = true ->
      LogManager.tail_file w
      = (replay
           ++ WatchStart
           :: (LogManager.follow_loop (LogManager.decode w) pos
                 (LogManager.cycles w)).1,
         Ok Following)
  | Raise e =>
      LogManager.tail_file w
      = (replay
           ++ [Yield (lit "[SYSTEM] Error reading file: " ++ str_exn e)],
         Ok Ended)
  end.
Proof.
  intros Hpath Hex Hopen Hsize Hpos replay. unfold LogManager.tail_file.
  rewrite Hpath, Hex, (backlog_run w content Hopen Hsize), Hpos.
  cbn [negb]. fold replay.
  destruct (LogManager.observer w) as [[] | e];
    [|run_trace; cbn [app]; by rewrite !app_nil_r].
  intros Hben. run_trace. unfold Trace.finally.
  pose proof (follow_loop_benign (LogManager.decode w) pos _ Hben) as Hf.
  destruct (LogManager.follow_loop (LogManager.decode w) pos
              (LogManager.cycles w)) as [evs r].
  cbn [snd] in Hf. subst r. reflexivity.
Qed.

Lemma local_tail_replay_then_follow_witness :
  LogManager.tail_file (accented_log (Ok tt))
  = ([Yield ["233"%char]; Yield (lit "b"); WatchStart; Sleep; Yield (lit "x")],
     Ok Following)
  /\ LogManager.tail_file
       (accented_log (Raise (OSError (lit "inotify watch limit reached"))))
     = ([Yield ["233"%char]; Yield (lit "b");
         Yield (lit "[SYSTEM] Error reading file: inotify watch limit reached")],
        Ok Ended).
Proof.
  split.
  - apply (local_tail_replay_then_follow (accented_log (Ok tt))
             (lit "/var/log/app.log")
             [Byte.xc3; Byte.xa9; Byte.x0a; Byte.x62; Byte.x0a] 5
             eq_refl eq_refl eq_refl eq_refl eq_refl eq_refl).
  - apply (local_tail_replay_then_follow
             (accented_log
                (Raise (OSError (lit "inotify watch limit reached"))))
             (lit "/var/log/app.log")
             [Byte.xc3; Byte.xa9; Byte.x0a; Byte.x62; Byte.x0a] 5
             eq_refl eq_refl eq_refl eq_refl eq_refl).
Defined.

Section Sanitize.

Lemma sanitize_char_safe (c : ascii) :
  is_filename_char (if is_filename_char c then c else "_"%char) = true.
Proof. by destruct (is_filename_char c) eqn:E. Qed.

End Sanitize.

(** X13.  [sanitize_filename] keeps the length, leaves only word
    characters, dots and hyphens, and is idempotent; its result holds no
    path separator, no white space and none of the characters the command
    validator refuses. *)
Theorem sanitize_filename_safe (filename : str) :
  length (sanitize_filename filename) = length filename
  /\ Forall (fun c => is_filename_char c = true) (sanitize_filename filename)
  /\ sanitize_filename (sanitize_filename filename)
     = sanitize_filename filename
  /\ (PosixPath.sep ∉ sanitize_filename filename)
  /\ (forall ch, ch ∈ dangerous_chars -> ch ∉ sanitize_filename filename)
  /\ (forall c, c ∈ sanitize_filename filename -> isspace c = false).
Proof.
  assert (Hsafe : Forall (fun c => is_filename_char c = true)
                    (sanitize_filename filename)).
  { unfold sanitize_filename. apply Forall_forall. intros c Hin.
    apply list_elem_of_fmap in Hin as (c0 & -> & _).
    apply sanitize_char_safe. }
  assert (Hnot : forall c, is_filename_char c = false ->
                           c ∉ sanitize_filename filename).
  { intros c Hc Hin. rewrite Forall_forall in Hsafe.
    specialize (Hsafe c Hin). congruence. }
  split; [apply length_map|]. split; [exact Hsafe|]. split; [|split; [|split]].
  - unfold sanitize_filename. rewrite map_map. apply map_ext.
    intros c. by rewrite sanitize_char_safe.
  - by apply Hnot.
  - intros ch Hch. apply Hnot.
    assert (Hall : forallb (fun c => negb (is_filename_char c))
                     dangerous_chars = true) by reflexivity.
    rewrite forallb_forall in Hall. apply negb_true_iff, Hall.
    by apply list_elem_of_In.
  - intros c Hin. rewrite Forall_forall in Hsafe. specialize (Hsafe c Hin).
    revert Hsafe. clear. destruct c as [[] [] [] [] [] [] [] []]; by vm_compute.
Qed.

Section DenyList.
Import Re.

Lemma chr_eq_lower (p c : ascii) : lower c = lower p -> chr_eq true p c = true.
Proof. intros H. unfold chr_eq. rewrite H. apply Ascii.eqb_refl. Qed.

(** A literal pattern matches, whatever the case, the text it spells. *)
Lemma exec_word (w m post : str) (k : str -> option str) :
  w <> [] ->
  map lower m = map lower w ->
  exec true (word w) (m ++ post) k = k post.
Proof.
  revert m. induction w as [|p w IH]; intros m Hne Hm; [done|].
  destruct m as [|c m]; [done|]. injection Hm as Hc Hm.
  destruct w as [|p' w].
  - destruct m; [|done]. cbn [word exec app]. by rewrite chr_eq_lower.
  - change (word (p :: p' :: w)) with (Seq (Chr p) (word (p' :: w))).
    cbn [exec app]. rewrite chr_eq_lower by done. by apply IH.
Qed.

Lemma search_skip (r : regex) (pre s : str) :
  search true r s = true -> search true r (pre ++ s) = true.
Proof.
  intros H. induction pre as [|c pre IH]; [done|].
  cbn [app search]. by destruct (match_at true r (c :: pre ++ s)).
Qed.

Lemma search_at (r : regex) (s rest : str) :
  match_at true r s = Some rest -> search true r s = true.
Proof. intros H. destruct s; cbn [search]; by rewrite H. Qed.

Lemma denied_pattern (r : regex) (s : str) :
  In r DANGEROUS_PATTERNS -> search true r s = true -> denied s = true.
Proof.
  intros Hin Hs. unfold denied. apply existsb_exists. by exists r.
Qed.

End DenyList.

(** X14.  The deny-list overrides every allow-list and ignores case: a
    path whose canonical form holds /etc/shadow, /etc/passwd, /root/.ssh,
    /proc/ or /sys/ in any mix of cases, or ends in .pem or .key (a final
    line feed apart), is refused whatever is allowed. *)
Theorem validate_path_deny_list (cwd path : str) (allowed : list str)
    (pre m post : str) :
  canonical cwd path = pre ++ m ++ post ->
  (map lower m ∈ denied_anywhere
   \/ (map lower m ∈ denied_endings /\ (post = [] \/ post = [LF]))) ->
  validate_path cwd path allowed = false.
Proof.
  intros Hcanon Hm. rewrite validate_path_unfold, Hcanon.
  replace (denied (pre ++ m ++ post)) with true; [done|]. symmetry.
  assert (Hlow : forall w, map lower m = w -> map lower w = w ->
                           map lower m = map lower w) by congruence.
  destruct Hm as [Hm | [Hm Hpost]].
  - assert (Hw : exists w, map lower m = w /\ map lower w = w /\ w <> []
                           /\ In (Re.word w) DANGEROUS_PATTERNS).
    { unfold denied_anywhere in Hm.
      repeat (apply elem_of_cons in Hm as [-> | Hm];
              [eexists; split; [reflexivity|];
               split; [reflexivity|]; split; [discriminate|];
               cbn; tauto|]).
      by apply elem_of_nil in Hm. }
    destruct Hw as (w & Hmw & Hww & Hne & Hin).
    apply (denied_pattern _ _ Hin), search_skip.
    apply (search_at _ _ post). unfold Re.match_at.
    apply exec_word; [done | by apply Hlow].
  - assert (Hw : exists w, map lower m = w /\ map lower w = w /\ w <> []
                           /\ In (Re.Seq (Re.word w) Re.Dollar)
                                DANGEROUS_PATTERNS).
    { unfold denied_endings in Hm.
      repeat (apply elem_of_cons in Hm as [-> | Hm];
              [eexists; split; [reflexivity|];
               split; [reflexivity|]; split; [discriminate|];
               cbn; tauto|]).
      by apply elem_of_nil in Hm. }
    destruct Hw as (w & Hmw & Hww & Hne & Hin).
    apply (denied_pattern _ _ Hin), search_skip.
    apply (search_at _ _ post). unfold Re.match_at.
    cbn [Re.exec]. rewrite exec_word by (done || by apply Hlow).
    by destruct Hpost as [-> | ->].
Qed.

Lemma validate_path_deny_list_witness :
  validate_path (lit "/srv/app") (lit "/var/log/../../ETC/Passwd.bak")
    [lit "/"] = false
  /\ validate_path (lit "/srv/app") (lit "/var/log/server.PEM")
       [lit "/var/log"] = false.
Proof.
  split.
  - apply (validate_path_deny_list (lit "/srv/app")
             (lit "/var/log/../../ETC/Passwd.bak") [lit "/"]
             [] (lit "/ETC/Passwd") (lit ".bak") eq_refl).
    left. apply (bool_decide_eq_true_1 (_ ∈ denied_anywhere)). reflexivity.
  - apply (validate_path_deny_list (lit "/srv/app")
             (lit "/var/log/server.PEM") [lit "/var/log"]
             (lit "/var/log/server") (lit ".PEM") [] eq_refl).
    right. split; [|by left].
    apply (bool_decide_eq_true_1 (_ ∈ denied_endings)). reflexivity.
Defined.

Section Acquire.
Import SSHConnectionPool SSHPool.

Lemma create_connection_attempts (net : network) (cfg : server_config)
    (cred : credentials) :
  (length (attempts (create_connection net cfg cred).1) <= 1)%nat
  /\ net_closed (create_connection net cfg cred).1 = [].
Proof.
  unfold create_connection.
  repeat case_match; cbn; split; (lia || done).
Qed.

Lemma create_and_cache_spec (net : network) (now : Z) (cfg : server_config)
    (cred : credentials) (p : pool) (conns : gmap str conn_info) :
  let '(evs, p', r) := create_and_cache net now cfg cred p conns in
  (length (attempts evs) <= 1)%nat
  /\ net_closed evs = []
  /\ max_connections p' = max_connections p
  /\ timeout p' = timeout p
  /\ (forall sid, sid <> server_id cfg ->
                  connections p' !! sid = conns !! sid)
  /\ match r with
     | Some c =>
         connections p' !! server_id cfg
         = Some {| client := c; last_used := now; config := cfg |}
     | None => connections p' !! server_id cfg = conns !! server_id cfg
     end.
Proof.
  unfold create_and_cache.
  pose proof (create_connection_attempts net cfg cred) as [Ha Hc].
  destruct (create_connection net cfg cred) as [evs [c | e]];
    cbn [fst] in Ha, Hc.
  - repeat split; try done.
    + intros sid Hne. cbn. by rewrite lookup_insert_ne.
    + cbn. by rewrite lookup_insert_eq.
  - unfold attempts, net_closed in *. rewrite !omap_app, Hc.
    repeat split; try done. cbn. rewrite app_nil_r. exact Ha.
Qed.

End Acquire.

(** X15.  [get_connection] touches only the entry of the server it is
    called for, and leaves the limits of the pool alone.  After the call
    that entry holds exactly the client returned, stamped with the time of
    the call; when no client is returned there is no entry: a failure is
    not cached and a dead connection does not stay. *)
Theorem get_connection_cache (net : SSHPool.network) (current_time : Z)
    (cfg : server_config) (cred : SSHPool.credentials)
    (p : SSHConnectionPool.pool) :
  exists evs p' r,
    SSHPool.get_connection net current_time cfg cred p = (evs, p', r)
    /\ SSHConnectionPool.max_connections p'
       = SSHConnectionPool.max_connections p
    /\ SSHConnectionPool.timeout p' = SSHConnectionPool.timeout p
    /\ (forall sid, sid <> SSHPool.server_id cfg ->
                    SSHConnectionPool.connections p' !! sid
                    = SSHConnectionPool.connections p !! sid)
    /\ match r with
       | Some c =>
           exists conn,
             SSHConnectionPool.connections p' !! SSHPool.server_id cfg
             = Some conn
             /\ SSHConnectionPool.client conn = c
             /\ SSHConnectionPool.last_used conn = current_time
       | None =>
           SSHConnectionPool.connections p' !! SSHPool.server_id cfg = None
       end.
Proof.
  unfold SSHPool.get_connection.
  destruct (SSHConnectionPool.connections p !! SSHPool.server_id cfg)
    as [conn|] eqn:Hlk.
  - destruct (SSHPool.is_active net (SSHConnectionPool.client conn)).
    + eexists _, _, _. split; [reflexivity|]. repeat split.
      * intros sid Hne. cbn. by rewrite lookup_insert_ne.
      * eexists. cbn. rewrite lookup_insert_eq. by repeat split.
    + pose proof (create_and_cache_spec net current_time cfg cred p
                    (delete (SSHPool.server_id cfg)
                       (SSHConnectionPool.connections p))) as H.
      destruct (SSHPool.create_and_cache _ _ _ _ _ _) as [[evs p'] r].
      destruct H as (_ & _ & Hmax & Htime & Hframe & Hentry).
      eexists _, _, _. split; [reflexivity|]. repeat split; try done.
      * intros sid Hne. rewrite Hframe by done. by rewrite lookup_delete_ne.
      * destruct r as [c|].
        -- eexists. by repeat split.
        -- by rewrite Hentry, lookup_delete_eq.
  - pose proof (create_and_cache_spec net current_time cfg cred p
                  (SSHConnectionPool.connections p)) as H.
    destruct (SSHPool.create_and_cache _ _ _ _ _ _) as [[evs p'] r].
    destruct H as (_ & _ & Hmax & Htime & Hframe & Hentry).
    eexists _, _, _. split; [reflexivity|]. repeat split; try done.
    destruct r as [c|].
    + eexists. by repeat split.
    + by rewrite Hentry.
Qed.

(** X16.  [get_connection] attempts at most one connection.  A cached
    client that is alive is returned with neither an attempt nor a close;
    a cached client that is dead is closed, and it is the only client
    closed; with no cached client nothing is closed. *)
Theorem get_connection_effects (net : SSHPool.network) (current_time : Z)
    (cfg : server_config) (cred : SSHPool.credentials)
    (p : SSHConnectionPool.pool) :
  let '(evs, p', r) :=
    SSHPool.get_connection net current_time cfg cred p in
  (length (attempts evs) <= 1)%nat
  /\ match SSHConnectionPool.connections p !! SSHPool.server_id cfg with
     | Some conn =>
         if SSHPool.is_active net (SSHConnectionPool.client conn)
         then r = Some (SSHConnectionPool.client conn)
              /\ attempts evs = [] /\ net_closed evs = []
         else net_closed evs = [SSHConnectionPool.client conn]
     | None => net_closed evs = []
     end.
Proof.
  unfold SSHPool.get_connection.
  destruct (SSHConnectionPool.connections p !! SSHPool.server_id cfg)
    as [conn|] eqn:Hlk.
  - destruct (SSHPool.is_active net (SSHConnectionPool.client conn)).
    + cbn. repeat split; lia || done.
    + pose proof (create_and_cache_spec net current_time cfg cred p
                    (delete (SSHPool.server_id cfg)
                       (SSHConnectionPool.connections p))) as H.
      destruct (SSHPool.create_and_cache _ _ _ _ _ _) as [[evs p'] r].
      destruct H as (Ha & Hc & _). unfold net_closed, attempts in *.
      cbn. rewrite Hc. by split.
  - pose proof (create_and_cache_spec net current_time cfg cred p
                  (SSHConnectionPool.connections p)) as H.
    destruct (SSHPool.create_and_cache _ _ _ _ _ _) as [[evs p'] r].
    by destruct H as (Ha & Hc & _).
Qed.

(** X17.  [_create_connection] attempts a connection only with usable
    credentials: for the key method (the default) a non-empty key path that
    exists, passed as key file and without a password; for the password
    method a non-empty password and no key file; for no other method.  The
    host, the port (22 by default) and the user are those of the
    configuration. *)
Theorem create_connection_checks (net : SSHPool.network)
    (cfg : server_config) (cred : SSHPool.credentials)
    (kw : SSHPool.connect_kwargs) :
  kw ∈ attempts (SSHPool.create_connection net cfg cred).1 ->
  SSHPool.kw_hostname kw = host cfg
  /\ SSHPool.kw_port kw = default 22%Z (port cfg)
  /\ SSHPool.kw_username kw = SSHPool.user cred
  /\ ((default (lit "key") (SSHPool.auth_method cred) = lit "key"
       /\ (exists path,
             SSHPool.key_path cred = Some path /\ path <> []
             /\ SSHPool.key_exists net path = true
             /\ SSHPool.kw_key_filename kw = Some path)
       /\ SSHPool.kw_password kw = None)
      \/ (default (lit "key") (SSHPool.auth_method cred) = lit "password"
          /\ (exists secret,
                SSHPool.password cred = Some secret /\ secret <> []
                /\ SSHPool.kw_password kw = Some secret)
          /\ SSHPool.kw_key_filename kw = None)).
Proof.
  unfold SSHPool.create_connection, PosixPath.str_eqb.
  case_bool_decide as Hkey.
  - destruct (SSHPool.key_path cred) as [path|] eqn:Hpath;
      cbn [SSHPool.falsy orb]; [|by intros ?%elem_of_nil].
    destruct path as [|c path]; cbn [truthy negb orb];
      [by intros ?%elem_of_nil|].
    cbn [from_option id].
    destruct (SSHPool.key_exists net (c :: path)) eqn:Hex; cbn [negb];
      [|by intros ?%elem_of_nil].
    cbn [fst]. unfold attempts. rewrite omap_app.
    replace (omap _ (if SSHPool.key_mode_loose net (c :: path) then _ else _))
      with (@nil SSHPool.connect_kwargs)
      by (by destruct (SSHPool.key_mode_loose net (c :: path))).
    cbn. intros ->%list_elem_of_singleton. cbn.
    repeat split. left. repeat split; [done|]. by exists (c :: path).
  - case_bool_decide as Hpw; [|by intros ?%elem_of_nil].
    destruct (SSHPool.password cred) as [secret|] eqn:Hsecret;
      cbn [SSHPool.falsy]; [|by intros ?%elem_of_nil].
    destruct secret as [|c secret]; cbn [truthy negb];
      [by intros ?%elem_of_nil|].
    cbn. intros ->%list_elem_of_singleton. cbn.
    repeat split. right. repeat split; [done|]. by exists (c :: secret).
Qed.

Lemma create_connection_checks_witness :
  let net :=
    {| SSHPool.key_exists := fun path => bool_decide (path = lit "/keys/id");
       SSHPool.key_mode_loose := fun _ => true;
       SSHPool.connect := fun _ => Ok 7%nat;
       SSHPool.is_active := fun _ => true |} in
  let cred :=
    {| SSHPool.user := lit "ops"; SSHPool.auth_method := None;
       SSHPool.key_path := Some (lit "/keys/id");
       SSHPool.password := None |} in
  let kw :=
    {| SSHPool.kw_hostname := lit "logs.example"; SSHPool.kw_port := 22;
       SSHPool.kw_username := lit "ops";
       SSHPool.kw_key_filename := Some (lit "/keys/id");
       SSHPool.kw_password := None |} in
  SSHPool.kw_hostname kw = host var_log_profile
  /\ SSHPool.kw_port kw = default 22%Z (port var_log_profile)
  /\ SSHPool.kw_username kw = SSHPool.user cred
  /\ ((default (lit "key") (SSHPool.auth_method cred) = lit "key"
       /\ (exists path,
             SSHPool.key_path cred = Some path /\ path <> []
             /\ SSHPool.key_exists net path = true
             /\ SSHPool.kw_key_filename kw = Some path)
       /\ SSHPool.kw_password kw = None)
      \/ (default (lit "key") (SSHPool.auth_method cred) = lit "password"
          /\ (exists secret,
                SSHPool.password cred = Some secret /\ secret <> []
                /\ SSHPool.kw_password kw = Some secret)
          /\ SSHPool.kw_key_filename kw = None)).
Proof.
  intros net cred kw.
  apply (create_connection_checks net var_log_profile cred kw).
  apply list_elem_of_singleton. reflexivity.
Defined.

Section Release.
Import SSHConnectionPool SSHPool.

Lemma for_each_close (l : list conn_info) :
  Trace.for_each l (fun conn => Trace.emit (CloseClient (client conn)))
  = ((fun conn => CloseClient (client conn)) <$> l, Ok tt).
Proof.
  induction l as [|conn l IH]; [done|].
  cbn [Trace.for_each]. rewrite IH. reflexivity.
Qed.

Lemma closed_close_clients (l : list conn_info) :
  closed ((fun conn => CloseClient (client conn)) <$> l) = client <$> l.
Proof. induction l as [|conn l IH]; [done|]. cbn. by f_equal. Qed.

(** What [cleanup_idle_connections] leaves of the mapping. *)
Lemma cleanup_run (current_time : Z) (p : pool) :
  exists conns',
    cleanup_idle_connections current_time p
    = (close_events
         (filter (fun kv => is_idle current_time p kv.2 = true)
            (map_to_list (connections p))),
       Ok (with_connections p conns'))
    /\ forall sid,
         conns' !! sid
         = if decide (sid ∈ to_remove current_time p) then None
           else connections p !! sid.
Proof.
  set (l := filter (fun kv => is_idle current_time p kv.2 = true)
              (map_to_list (connections p))).
  destruct (remove_all_spec (connections p) l) as (conns' & Hrun & Hlk).
  { apply NoDup_fmap_fst.
    - intros sid c1 c2 [_ H1]%list_elem_of_filter [_ H2]%list_elem_of_filter.
      apply elem_of_map_to_list in H1, H2. congruence.
    - apply NoDup_filter, NoDup_map_to_list. }
  { intros sid ci [_ H]%list_elem_of_filter. by apply elem_of_map_to_list. }
  exists conns'. split; [|exact Hlk].
  unfold cleanup_idle_connections.
  change (to_remove current_time p) with l.*1. rewrite Hrun.
  run_trace. by rewrite app_nil_r.
Qed.

End Release.

(** X18.  [close_all] closes the client of every entry and leaves the pool
    empty; called again, it closes nothing. *)
Theorem close_all_releases (p : SSHConnectionPool.pool) :
  exists evs,
    SSHPool.close_all p
    = (evs, Ok (SSHConnectionPool.with_connections p ∅))
    /\ closed evs
       = SSHConnectionPool.client
           <$> (map_to_list (SSHConnectionPool.connections p)).*2
    /\ SSHPool.close_all (SSHConnectionPool.with_connections p ∅)
       = ([], Ok (SSHConnectionPool.with_connections p ∅)).
Proof.
  unfold SSHPool.close_all. rewrite for_each_close. run_trace.
  eexists. split; [by rewrite app_nil_r|].
  split; [apply closed_close_clients|].
  cbn [SSHConnectionPool.connections SSHConnectionPool.with_connections].
  rewrite map_to_list_empty. reflexivity.
Qed.

(** X19.  [cleanup_idle_connections] never raises; every entry it keeps is
    an entry of the pool as it was, idle for no longer than the pool's
    timeout; run again at the same time, it removes and closes nothing. *)
Theorem cleanup_idle_connections_stable (current_time : Z)
    (p : SSHConnectionPool.pool) :
  exists evs p',
    SSHConnectionPool.cleanup_idle_connections current_time p
    = (evs, Ok p')
    /\ (forall sid conn,
          SSHConnectionPool.connections p' !! sid = Some conn ->
          SSHConnectionPool.connections p !! sid = Some conn
          /\ (current_time - SSHConnectionPool.last_used conn
              <= SSHConnectionPool.timeout p)%Z)
    /\ SSHConnectionPool.cleanup_idle_connections current_time p'
       = ([], Ok p').
Proof.
  destruct (cleanup_run current_time p) as (conns' & Hrun & Hlk).
  eexists _, _. split; [exact Hrun|].
  assert (Hkept : forall sid conn,
             conns' !! sid = Some conn ->
             SSHConnectionPool.connections p !! sid = Some conn
             /\ SSHConnectionPool.is_idle current_time p conn = false).
  { intros sid conn H. rewrite Hlk in H. case_decide as Hin; [done|].
    split; [done|]. apply not_true_iff_false. intros Hidle.
    apply Hin, to_remove_elem. by exists conn. }
  split.
  - intros sid conn H. destruct (Hkept sid conn H) as [H1 H2].
    split; [done|]. unfold SSHConnectionPool.is_idle in H2.
    apply Z.ltb_ge in H2. exact H2.
  - destruct (cleanup_run current_time
                (SSHConnectionPool.with_connections p conns'))
      as (conns'' & Hrun' & Hlk').
    assert (Hnone : SSHConnectionPool.to_remove current_time
                      (SSHConnectionPool.with_connections p conns') = []).
    { destruct (SSHConnectionPool.to_remove current_time
                  (SSHConnectionPool.with_connections p conns'))
        as [|sid rest] eqn:E; [reflexivity|].
      assert (Hin : sid ∈ SSHConnectionPool.to_remove current_time
                            (SSHConnectionPool.with_connections p conns'))
        by (rewrite E; left).
      apply to_remove_elem in Hin as (conn & Hc & Hidle).
      destruct (Hkept sid conn Hc) as [_ Hnot].
      unfold SSHConnectionPool.is_idle in *. cbn in Hidle. congruence. }
    unfold SSHConnectionPool.cleanup_idle_connections. rewrite Hnone.
    reflexivity.
Qed.

Section Resolve.
Import Resolver.

Lemma startswith_split (p s : str) :
  startswith p s = true -> s = p ++ drop (length p) s.
Proof.
  intros [k ->]%startswith_prefix. by rewrite drop_app_length.
Qed.

Lemma startswith_app (p k : str) : startswith p (p ++ k) = true.
Proof. apply startswith_prefix. by exists k. Qed.

Lemma length_slash (name : str) :
  length (name ++ lit "/") = (length name + 1)%nat.
Proof. by rewrite length_app. Qed.

Lemma resolve_logs_sound (remaining full_path : str)
    (entries : list log_config) :
  resolve_logs remaining entries = Ok (Some full_path) ->
  exists entry dir base rel,
    entry ∈ entries
    /\ log_type entry = Some (lit "directory")
    /\ log_name entry = Some dir
    /\ log_path entry = Some base
    /\ remaining = dir ++ lit "/" ++ rel
    /\ full_path = PosixPath.join2 base rel.
Proof.
  induction entries as [|entry entries IH]; [done|].
  cbn [resolve_logs]. unfold PosixPath.str_eqb.
  case_bool_decide as Htype; cbn [andb].
  2:{ intros H. destruct (IH H) as (e & dir & base & rel & Hin & Hrest).
      exists e, dir, base, rel. split; [by right | done]. }
  destruct (startswith _ remaining) eqn:Hstart.
  2:{ intros H. destruct (IH H) as (e & dir & base & rel & Hin & Hrest).
      exists e, dir, base, rel. split; [by right | done]. }
  destruct (log_name entry) as [dir|] eqn:Hname; [|done].
  destruct (log_path entry) as [base|] eqn:Hpath; [|done].
  intros [= <-]. cbn [SSHPool.show default from_option id] in Hstart.
  exists entry, dir, base, (drop (length dir + 1) remaining).
  repeat split; try done.
  - left.
  - destruct (log_type entry) as [t|]; cbn in Htype; [by subst | done].
  - apply startswith_split in Hstart.
    by rewrite length_slash, <- app_assoc in Hstart.
Qed.

Lemma drop_name (name rest : str) :
  drop (length name + 1) (name ++ lit "/" ++ rest) = rest.
Proof. by rewrite <- length_slash, app_assoc, drop_app_length. Qed.

Lemma startswith_name (name rest : str) :
  startswith (name ++ lit "/") (name ++ lit "/" ++ rest) = true.
Proof. rewrite app_assoc. apply startswith_app. Qed.

End Resolve.

(** X20.  A name that [_resolve_remote_file] resolves reads server name,
    a slash, the name of one of that server's directory entries, a slash,
    and a rest; the path is [os.path.join] of the entry's base path and the
    rest, as written: the rest itself when the rest starts with a slash,
    else a text that starts with the text of the base path. *)
Theorem resolve_remote_file_sound (servers : list Resolver.remote_server)
    (file_name : str) (found : Resolver.resolved) :
  Resolver.resolve_remote_file servers file_name = Ok (Some found) ->
  exists entry dir base rel,
    Resolver.r_server found ∈ servers
    /\ entry ∈ Resolver.logs (Resolver.r_server found)
    /\ Resolver.log_type entry = Some (lit "directory")
    /\ Resolver.log_name entry = Some dir
    /\ Resolver.log_path entry = Some base
    /\ file_name
       = default (lit "Remote")
           (Resolver.server_name (Resolver.r_server found))
         ++ lit "/" ++ dir ++ lit "/" ++ rel
    /\ Resolver.r_path found = PosixPath.join2 base rel
    /\ (startswith (lit "/") rel = true -> Resolver.r_path found = rel)
    /\ (startswith (lit "/") rel = false ->
        base `prefix_of` Resolver.r_path found).
Proof.
  induction servers as [|server servers IH]; [done|].
  cbn [Resolver.resolve_remote_file].
  destruct (startswith _ file_name) eqn:Hstart; cbn [negb].
  2:{ intros H. destruct (IH H) as (e & dir & base & rel & Hin & Hrest).
      exists e, dir, base, rel. split; [by right | done]. }
  destruct (Resolver.resolve_logs _ (Resolver.logs server))
    as [[full_path|] | e] eqn:Hlogs; [| |done].
  2:{ intros H. destruct (IH H) as (e & dir & base & rel & Hin & Hrest).
      exists e, dir, base, rel. split; [by right | done]. }
  intros [= <-]. cbn [Resolver.r_server Resolver.r_path].
  apply resolve_logs_sound in Hlogs
    as (entry & dir & base & rel & Hin & Htype & Hname & Hpath & Hrem & ->).
  exists entry, dir, base, rel. repeat split; try done.
  - left.
  - apply startswith_split in Hstart.
    rewrite length_slash in Hstart. rewrite Hrem in Hstart.
    by rewrite <- app_assoc in Hstart.
  - intros Hrel. unfold PosixPath.join2.
    change [PosixPath.sep] with (lit "/"). by rewrite Hrel.
  - intros Hrel. unfold PosixPath.join2.
    change [PosixPath.sep] with (lit "/"). rewrite Hrel.
    destruct (_ || _); by eexists.
Qed.

Lemma resolve_remote_file_sound_witness :
  let server :=
    {| Resolver.server_name := Some (lit "web");
       Resolver.logs :=
         [ {| Resolver.log_name := Some (lit "app");
              Resolver.log_type := Some (lit "directory");
              Resolver.log_path := Some (lit "/var/log/app") |} ];
       Resolver.profile := var_log_profile |} in
  let found := {| Resolver.r_path := lit "/etc/hosts";
                  Resolver.r_server := server |} in
  exists entry dir base rel,
    Resolver.r_server found ∈ [server]
    /\ entry ∈ Resolver.logs (Resolver.r_server found)
    /\ Resolver.log_type entry = Some (lit "directory")
    /\ Resolver.log_name entry = Some dir
    /\ Resolver.log_path entry = Some base
    /\ lit "web/app//etc/hosts"
       = default (lit "Remote")
           (Resolver.server_name (Resolver.r_server found))
         ++ lit "/" ++ dir ++ lit "/" ++ rel
    /\ Resolver.r_path found = PosixPath.join2 base rel
    /\ (startswith (lit "/") rel = true -> Resolver.r_path found = rel)
    /\ (startswith (lit "/") rel = false ->
        base `prefix_of` Resolver.r_path found).
Proof.
  intros server found.
  apply (resolve_remote_file_sound [server] (lit "web/app//etc/hosts") found).
  reflexivity.
Defined.

(** The join is a join of texts: nothing is normalised, and a rest that
    climbs with two dots names a file outside the entry's directory, which
    [validate_path] lets through when the allowed prefix is wider than that
    directory. *)
Example resolve_remote_file_climbs :
  let server :=
    {| Resolver.server_name := Some (lit "web");
       Resolver.logs :=
         [ {| Resolver.log_name := Some (lit "app");
              Resolver.log_type := Some (lit "directory");
              Resolver.log_path := Some (lit "/var/log/app") |} ];
       Resolver.profile := var_log_profile |} in
  Resolver.resolve_remote_file [server] (lit "web/app/../secure/auth.log")
  = Ok (Some {| Resolver.r_path := lit "/var/log/app/../secure/auth.log";
                Resolver.r_server := server |})
  /\ canonical (lit "/srv/tail-f") (lit "/var/log/app/../secure/auth.log")
     = lit "/var/log/secure/auth.log"
  /\ validate_path (lit "/srv/tail-f")
       (lit "/var/log/app/../secure/auth.log") [lit "/var/log"]
     = true.
Proof. repeat split. Qed.

(** X21.  The name built from a server, one of its directory entries and
    a relative part resolves to that server and to the join of the entry's
    base path and the relative part, provided no earlier server's name and
    no earlier directory entry's name is a prefix of it as well. *)
Theorem resolve_remote_file_named (before after : list Resolver.remote_server)
    (server : Resolver.remote_server)
    (earlier later : list Resolver.log_config) (entry : Resolver.log_config)
    (dir base rel : str) :
  Resolver.logs server = earlier ++ entry :: later ->
  Resolver.log_type entry = Some (lit "directory") ->
  Resolver.log_name entry = Some dir ->
  Resolver.log_path entry = Some base ->
  let name := default (lit "Remote") (Resolver.server_name server) in
  let file_name := name ++ lit "/" ++ dir ++ lit "/" ++ rel in
  Forall (fun other =>
            startswith
              (default (lit "Remote") (Resolver.server_name other) ++ lit "/")
              file_name = false) before ->
  Forall (fun other =>
            Resolver.log_type other <> Some (lit "directory")
            \/ startswith (SSHPool.show (Resolver.log_name other) ++ lit "/")
                 (dir ++ lit "/" ++ rel) = false) earlier ->
  Resolver.resolve_remote_file (before ++ server :: after) file_name
  = Ok (Some {| Resolver.r_path := PosixPath.join2 base rel;
                Resolver.r_server := server |}).
Proof.
  intros Hlogs Htype Hname Hpath name file_name Hbefore Hearlier.
  induction Hbefore as [|other before Hother _ IH].
  - cbn [app Resolver.resolve_remote_file]. fold name.
    unfold file_name. rewrite startswith_name, drop_name. cbn [negb].
    rewrite Hlogs. clear Hlogs.
    induction Hearlier as [|other earlier Hother _ IH].
    + cbn [app Resolver.resolve_logs]. rewrite Htype, Hname, Hpath.
      cbn [default from_option id SSHPool.show].
      unfold PosixPath.str_eqb. rewrite bool_decide_eq_true_2 by done.
      rewrite startswith_name, drop_name. reflexivity.
    + cbn [app Resolver.resolve_logs]. unfold PosixPath.str_eqb.
      destruct Hother as [Hnot | Hnot].
      * rewrite bool_decide_eq_false_2; [exact IH|].
        destruct (Resolver.log_type other) as [t|]; cbn; [|done].
        intros ->. by apply Hnot.
      * rewrite Hnot, andb_false_r. exact IH.
  - cbn [app Resolver.resolve_remote_file]. rewrite Hother. exact IH.
Qed.

Lemma resolve_remote_file_named_witness :
  let entry :=
    {| Resolver.log_name := Some (lit "app");
       Resolver.log_type := Some (lit "directory");
       Resolver.log_path := Some (lit "/var/log/app") |} in
  let server :=
    {| Resolver.server_name := Some (lit "web");
       Resolver.logs :=
         [ {| Resolver.log_name := Some (lit "sys");
              Resolver.log_type := None;
              Resolver.log_path := Some (lit "/var/log/syslog") |};
           entry ];
       Resolver.profile := var_log_profile |} in
  Resolver.resolve_remote_file [server] (lit "web/app/2024/x.log")
  = Ok (Some {| Resolver.r_path := lit "/var/log/app/2024/x.log";
                Resolver.r_server := server |}).
Proof.
  intros entry server.
  apply (resolve_remote_file_named [] [] server
           [ {| Resolver.log_name := Some (lit "sys");
                Resolver.log_type := None;
                Resolver.log_path := Some (lit "/var/log/syslog") |} ]
           [] entry (lit "app") (lit "/var/log/app") (lit "2024/x.log")
           eq_refl eq_refl eq_refl eq_refl).
  - constructor.
  - constructor; [|constructor]. left. discriminate.
Defined.
